(** * Signaler: the websocket signalling relay of [api/websocket.go]

    A shallow embedding of the connection handler of the signaler
    ([HandleRootWSUpgrade], [handleWS], [handleClientMessage] and the
    senders [sendMembers], [sendSdp], [sendCandidate], [sendPing],
    [announceExit]) together with the properties of its specification.

    The Go code runs one goroutine per connection and shares two things
    between connections: the room directory (package [room]) and the
    transports of the sessions stored in it.  The embedding threads both
    through a state monad, together with the trace of what one handler
    invocation did to them. *)

From stdpp Require Import gmap strings list fin_maps.

Set Default Proof Using "Type".

(** ** Data model *)

(** [jwt.PionClaim]: the identity a validated token carries. *)
Record PionClaim := mkClaim {
  ApiKeyID : string;
  Room : string;
  SessionKey : string
}.

(** Modelled from the spec: the struct [pionSession], declared outside
    [api/websocket.go] and built there as [{mu, websocket, claims}]: the
    claims and the transport of one connection.  The transport (a
    [*websocket.Conn]) is a handle into the world below; the mutex [mu]
    only serialises writers and has no sequential content. *)
Record pionSession := mkSession {
  websocket : nat;
  claims : PionClaim
}.

#[global] Instance PionClaim_eq_dec : EqDecision PionClaim.
Proof. solve_decision. Defined.
#[global] Instance pionSession_eq_dec : EqDecision pionSession.
Proof. solve_decision. Defined.

(** Modelled from the spec: the [Args] of the structs [messageSDP] and
    [messageCandidate], declared outside [api/websocket.go]: source,
    destination and the opaque negotiation payload. *)
Record relayArgs := mkArgs {
  Src : string;
  Dst : string;
  Payload : string
}.

(** Modelled from the spec: the envelope structs [messageMembers],
    [messageSDP], [messageCandidate], [messagePing] and [messageExit],
    declared outside [api/websocket.go]; the constructor stands for the
    [Method] of the [messageBase] each embeds. *)
Inductive message :=
| messageMembers (Members : list string)
| messageSDP (Args : relayArgs)
| messageCandidate (Args : relayArgs)
| messagePing
| messageExit (sessionKey : string).

#[global] Instance relayArgs_eq_dec : EqDecision relayArgs.
Proof. solve_decision. Defined.
#[global] Instance message_eq_dec : EqDecision message.
Proof. solve_decision. Defined.

(** A frame read from the client, as [encoding/json] sees it: either
    bytes that no [json.Unmarshal] accepts, or an object with a [method]
    and an [args] member that does or does not decode as relay
    arguments (absent members decode as empty strings). *)
Inductive Raw :=
| RawInvalid
| RawObject (method : string) (args : option relayArgs).

(** [json.Unmarshal(raw, &messageBase{})] *)
Definition unmarshalBase (raw : Raw) : option string :=
  match raw with
  | RawInvalid => None
  | RawObject m _ => Some m
  end.

(** [json.Unmarshal(raw, &messageSDP{})], [json.Unmarshal(raw, &messageCandidate{})] *)
Definition unmarshalRelay (raw : Raw) : option relayArgs :=
  match raw with
  | RawInvalid => None
  | RawObject _ a => a
  end.

(** Go [error] values; [nil] is [None] of [option error]. *)
Inductive error :=
| ErrUnmarshal
| ErrNoEntry
| ErrUnknownMethod (m : string)
| ErrTransport
| ErrSessionAbsent
| ErrClaims (msg : string)
| ErrWrap (e : error) (msg : string).

(** [errors.Wrap]: [nil] stays [nil]. *)
Definition Wrap (e : option error) (msg : string) : option error :=
  match e with
  | None => None
  | Some e => Some (ErrWrap e msg)
  end.

(** [errors.Cause] *)
Fixpoint Cause (e : error) : error :=
  match e with
  | ErrWrap e _ => Cause e
  | _ => e
  end.


Definition PeerNotFound (e : error) : Prop := Cause e = ErrNoEntry.

(** What a handler invocation does to the directory and the transports. *)
Inductive Action :=
| ActStore (t r k : string) (c : nat)
| ActDestroy (t r k : string) (found : bool)
| ActWrite (c : nat) (m : message) (ok : bool)
| ActClose (c : nat).

#[global] Instance Action_eq_dec : EqDecision Action.
Proof. solve_decision. Defined.

(** The shared world: the room directory, the transports on which a
    write fails, the trace of the handler and what it printed. *)
Record World := mkWorld {
  rooms : gmap (string * string) (gmap string pionSession);
  broken : gset nat;
  trace : list Action;
  logs : list string
}.

(** ** The state monad of a handler *)

Definition M (A : Type) : Type := World → A * World.

#[global] Instance M_ret : MRet M := λ A a w, (a, w).
#[global] Instance M_bind : MBind M :=
  λ A B f m w, let '(a, w') := m w in f a w'.

(** Unfolding of the monadic steps of a handler. *)
Ltac run := unfold mbind, M_bind, mret, M_ret in *; simpl in *.

Definition emit (a : Action) : M unit :=
  λ w, (tt, mkWorld (rooms w) (broken w) (trace w ++ [a]) (logs w)).

Definition println (line : string) : M unit :=
  λ w, (tt, mkWorld (rooms w) (broken w) (trace w) (logs w ++ [line])).

(** ** Package [room] *)

(** Modelled from the spec: [room.GetRoom], the map of the sessions of a
    (tenant, room) scope, over which the callers enumerate, and whether
    the scope exists. *)
Definition GetRoom (t r : string) (w : World) : option (gmap string pionSession) :=
  rooms w !! (t, r).

(** Modelled from the spec: [room.GetSession], the point lookup [get] of
    a key in a (tenant, room) scope. *)
Definition GetSession (t r k : string) (w : World) : option pionSession :=
  GetRoom t r w ≫= λ m, m !! k.

(** Modelled from the spec: what [put] does to the directory: it
    registers the session under its key, over whatever was there. *)
Definition putSession (t r k : string) (s : pionSession)
    (d : gmap (string * string) (gmap string pionSession)) :
    gmap (string * string) (gmap string pionSession) :=
  <[(t, r) := <[k := s]> (default ∅ (d !! (t, r)))]> d.

(** Modelled from the spec: what [remove] does to the directory. *)
Definition removeSession (t r k : string)
    (d : gmap (string * string) (gmap string pionSession)) :
    gmap (string * string) (gmap string pionSession) :=
  match d !! (t, r) with
  | Some m => <[(t, r) := delete k m]> d
  | None => d
  end.

(** Modelled from the spec: [room.StoreSession], that is [put]. *)
Definition StoreSession (t r k : string) (s : pionSession) : M unit :=
  λ w, emit (ActStore t r k (websocket s))
         (mkWorld (putSession t r k s (rooms w)) (broken w) (trace w) (logs w)).

(** Modelled from the spec: [room.DestroySession], that is [remove]; its
    error tells that the key was not there. *)
Definition DestroySession (t r k : string) : M (option error) :=
  λ w, match GetSession t r k w with
       | Some _ =>
           (None, (emit (ActDestroy t r k true)
              (mkWorld (removeSession t r k (rooms w)) (broken w) (trace w) (logs w))).2)
       | None => (Some ErrSessionAbsent, (emit (ActDestroy t r k false) w).2)
       end.

(** [membersMap.Range]: the callback runs once per entry, in the map's
    enumeration order, and always asks to go on. *)
Fixpoint Range {K V} (f : K → V → M unit) (l : list (K * V)) : M unit :=
  match l with
  | [] => mret tt
  | (k, v) :: l => f k v;; Range f l
  end.

(** ** The session writer and the transport *)

(** Modelled from the spec: [pionSession.WriteJSON], the serialised
    encode-and-send of a session, declared outside [api/websocket.go];
    the write fails when the transport is broken or closed. *)
Definition WriteJSON (s : pionSession) (m : message) : M (option error) :=
  λ w, if decide (websocket s ∈ broken w)
       then (Some ErrTransport, (emit (ActWrite (websocket s) m false) w).2)
       else (None, (emit (ActWrite (websocket s) m true) w).2).

(** [websocket.Conn.Close]: nothing can be written afterwards. *)
Definition Close (c : nat) : M (option error) :=
  λ w, (if decide (c ∈ broken w) then Some ErrTransport else None,
        mkWorld (rooms w) ({[c]} ∪ broken w) (trace w ++ [ActClose c]) (logs w)).

(** ** The senders *)

Definition sendMembers (session : pionSession) : M (option error) :=
  λ w,
    let Members :=
      match GetRoom (ApiKeyID (claims session)) (Room (claims session)) w with
      | Some membersMap =>
          foldl (λ acc kv, if decide (kv.1 ≠ SessionKey (claims session))
                           then acc ++ [kv.1] else acc)
                [] (map_to_list membersMap)
      | None => []
      end in
    WriteJSON session (messageMembers Members) w.

(** The relay of an sdp and of a candidate: the same steps on two
    envelope types.  [Src] is assigned before the lookup of [Dst]. *)
Definition sendSdp (session : pionSession) (raw : Raw) : M (option error) :=
  match unmarshalRelay raw with
  | None => mret (Some ErrUnmarshal)
  | Some a =>
      let a := mkArgs (SessionKey (claims session)) (Dst a) (Payload a) in
      λ w, match GetSession (ApiKeyID (claims session)) (Room (claims session)) (Dst a) w with
           | None => (Some ErrNoEntry, w)
           | Some dstConn => WriteJSON dstConn (messageSDP a) w
           end
  end.

Definition sendCandidate (session : pionSession) (raw : Raw) : M (option error) :=
  match unmarshalRelay raw with
  | None => mret (Some ErrUnmarshal)
  | Some a =>
      let a := mkArgs (SessionKey (claims session)) (Dst a) (Payload a) in
      λ w, match GetSession (ApiKeyID (claims session)) (Room (claims session)) (Dst a) w with
           | None => (Some ErrNoEntry, w)
           | Some dstConn => WriteJSON dstConn (messageCandidate a) w
           end
  end.

Definition sendPing (session : pionSession) : M (option error) :=
  WriteJSON session messagePing.

(** The callback [announceExit] hands to [Range]. *)
Definition exitTo (sessionKey : string) (_ : string) (value : pionSession) : M unit :=
  err ← WriteJSON value (messageExit sessionKey);
  match err with
  | Some _ => println "Failed to announceExit"
  | None => mret tt
  end.

Definition announceExit (apiKey room sessionKey : string) : M unit :=
  λ w, match GetRoom apiKey room w with
       | Some membersMap => Range (exitTo sessionKey) (map_to_list membersMap) w
       | None => (tt, w)
       end.

(** ** The dispatcher *)

Definition handleClientMessage (session : pionSession) (raw : Raw) : M (option error) :=
  match unmarshalBase raw with
  | None => mret (Some ErrUnmarshal)
  | Some method =>
      if decide (method = "members") then
        err ← sendMembers session; mret (Wrap err "sendMembers failed")
      else if decide (method = "sdp") then
        err ← sendSdp session raw; mret (Wrap err "sendSdp failed")
      else if decide (method = "candidate") then
        err ← sendCandidate session raw; mret (Wrap err "sendCandidate failed")
      else if decide (method = "pong") then
        mret None
      else
        mret (Some (ErrUnknownMethod method))
  end.

(** ** The event loop *)

(** What other goroutines do to the shared world between two rounds of
    the loop: another connection registers or leaves, a transport dies. *)
Inductive env :=
| PeerJoin (t r k : string) (s : pionSession)
| PeerLeave (t r k : string)
| TransportDown (c : nat).

Definition interfere (e : env) (w : World) : World :=
  match e with
  | PeerJoin t r k s => mkWorld (putSession t r k s (rooms w)) (broken w) (trace w) (logs w)
  | PeerLeave t r k => mkWorld (removeSession t r k (rooms w)) (broken w) (trace w) (logs w)
  | TransportDown c => mkWorld (rooms w) ({[c]} ∪ broken w) (trace w) (logs w)
  end.

(** What the [select] of [handleWS] wakes up on: a tick of
    [pingTicker], a frame the reading goroutine passed on [in], the
    [stop] channel that goroutine closed after [ReadMessage] failed.
    [Env] is no case of the [select]: it stands for what other
    goroutines did before the next case is taken. *)
Inductive event :=
| Tick
| Inbound (raw : Raw)
| ReadError
| Env (e : env).

(** Why [handleWS] returned. *)
Inductive exit :=
| PingFailed (e : error)
| HandlerFailed (e : error)
| Stopped.

(** [handleWS] over the events the [select] sees, in order.  [None]: the
    events are used up and the loop is blocked in [select], the
    connection is still served. *)
Fixpoint handleWS (session : pionSession) (evs : list event) : M (option exit) :=
  match evs with
  | [] => mret None
  | Tick :: evs =>
      err ← sendPing session;
      match err with
      | Some e => mret (Some (PingFailed e))
      | None => handleWS session evs
      end
  | Inbound raw :: evs =>
      err ← handleClientMessage session raw;
      match err with
      | Some e => mret (Some (HandlerFailed e))
      | None => handleWS session evs
      end
  | ReadError :: _ => mret (Some Stopped)
  | Env e :: evs => λ w, handleWS session evs (interfere e w)
  end.

(** ** The connection lifecycle *)

(** The closure [assertClaims] of [HandleRootWSUpgrade]. *)
Definition assertClaims (claims : PionClaim) : option error :=
  if decide (ApiKeyID claims = "") then Some (ErrClaims "Claims were missing a ApiKeyId")
  else if decide (SessionKey claims = "") then Some (ErrClaims "Claims were missing a sessionKey")
  else if decide (Room claims = "") then Some (ErrClaims "Claims were missing a room")
  else None.

(** The request as the handler uses it: what [upgrader.Upgrade] gives
    (the transport, or a failure) and the values of the [authToken]
    query parameter. *)
Record Request := mkRequest {
  upgrade : option nat;
  authTokens : list string
}.

(** How an invocation of [HandleRootWSUpgrade] stands when the events
    are used up. *)
Inductive outcome :=
| UpgradeFailed
| BadTokenCount (n : nat)
| GetClaimsFailed
| ClaimsRejected (e : error)
| MembersFailed (e : error)
| Closed (why : exit)
| Serving.

(** [if err != nil { log.Error().Err(err).Msg(msg) }] *)
Definition logError (err : option error) (msg : string) : M unit :=
  match err with
  | Some _ => println msg
  | None => mret tt
  end.

(** The deferred function of [HandleRootWSUpgrade]. *)
Definition teardown (session : pionSession) : M unit :=
  let claims := claims session in
  err ← DestroySession (ApiKeyID claims) (Room claims) (SessionKey claims);
  logError err "Failed to close destroy session";;
  announceExit (ApiKeyID claims) (Room claims) (SessionKey claims);;
  err ← Close (websocket session);
  logError err "Failed to close websocket".

Section Lifecycle.

(** [jwt.GetClaims], the external validation of the bearer token. *)
Variable GetClaims : string → option PionClaim.

Definition HandleRootWSUpgrade (r : Request) (evs : list event) : M outcome :=
  match upgrade r with
  | None => mret UpgradeFailed
  | Some c =>
      match authTokens r with
      | [authToken] =>
          match GetClaims authToken with
          | None => println "Failed to getClaims";; mret GetClaimsFailed
          | Some claims =>
              match assertClaims claims with
              | Some e =>
                  println (match e with ErrClaims msg => msg | _ => "" end);;
                  mret (ClaimsRejected e)
              | None =>
                  let session := mkSession c claims in
                  StoreSession (ApiKeyID claims) (Room claims) (SessionKey claims) session;;
                  err ← sendMembers session;
                  match err with
                  | Some e => teardown session;; mret (MembersFailed e)
                  | None =>
                      res ← handleWS session evs;
                      match res with
                      | Some why => teardown session;; mret (Closed why)
                      | None => mret Serving
                      end
                  end
              end
          end
      | authTokens =>
          println "Bad authToken count, should be 1";;
          mret (BadTokenCount (length authTokens))
      end
  end.

End Lifecycle.

(** The session the handler builds for a request, when it gets that far:
    the upgrade worked, there is one token, its claims validate and
    [assertClaims] accepts them. *)
Definition sessionOf (GetClaims : string → option PionClaim) (r : Request) :
    option pionSession :=
  match upgrade r, authTokens r with
  | Some c, [authToken] =>
      match GetClaims authToken with
      | Some claims =>
          match assertClaims claims with
          | None => Some (mkSession c claims)
          | Some _ => None
          end
      | None => None
      end
  | _, _ => None
  end.

(** ** Reading traces *)

(** What was done between two worlds of one invocation. *)
Definition since (w w' : World) : list Action :=
  drop (length (trace w)) (trace w').

(** The relay arguments an envelope carries, if it is a relay. *)
Definition relayArgsOf (m : message) : option relayArgs :=
  match m with
  | messageSDP a | messageCandidate a => Some a
  | _ => None
  end.

(** The actions of the event loop of [session]: a write of the members
    or of a ping to the session itself, or a relay whose source is the
    session's key.  No exit, no directory change, no close. *)
Definition loop_action (session : pionSession) (a : Action) : Prop :=
  match a with
  | ActWrite c (messageMembers _) _ => c = websocket session
  | ActWrite c messagePing _ => c = websocket session
  | ActWrite _ (messageSDP a) _ => Src a = SessionKey (claims session)
  | ActWrite _ (messageCandidate a) _ => Src a = SessionKey (claims session)
  | _ => False
  end.

(** An operation that only writes: directory and transports stay. *)
Definition writes (w w' : World) (t : list Action) : Prop :=
  rooms w' = rooms w ∧ broken w' = broken w ∧ trace w' = trace w ++ t.

(** The keys of a room that are not [k], in enumeration order. *)
Definition others (k : string) (room : gmap string pionSession) : list string :=
  filter (λ k', k' ≠ k) (map_to_list room).*1.

(** The sessions of a scope that remain once [k] has left it. *)
Definition remaining (t r k : string) (w : World) : gmap string pionSession :=
  delete k (default ∅ (GetRoom t r w)).

(** One write of the exit of [k] per session of [room], in enumeration
    order, each failing or not as its transport stands in [w]. *)
Definition exitWrites (k : string) (w : World) (room : gmap string pionSession) :
    list Action :=
  (λ kv, ActWrite (websocket kv.2) (messageExit k)
           (bool_decide (websocket kv.2 ∉ broken w))) <$> map_to_list room.

(** How many of the exit writes to [room] fail in [w]. *)
Definition exitFailures (w : World) (room : gmap string pionSession) : nat :=
  length (filter (λ kv, websocket kv.2 ∈ broken w) (map_to_list room)).

Definition isDestroy (a : Action) : bool :=
  match a with ActDestroy _ _ _ _ => true | _ => false end.

Definition isClose (a : Action) : bool :=
  match a with ActClose _ => true | _ => false end.

Definition isExit (a : Action) : bool :=
  match a with ActWrite _ (messageExit _) _ => true | _ => false end.

(** How many actions of a kind a trace holds. *)
Definition count (p : Action → bool) (tr : list Action) : nat :=
  length (List.filter p tr).

(** The writes [exits] are the exit of [k], one per entry of [room], in
    its enumeration order. *)
Definition exitsTo (k : string) (room : gmap string pionSession)
    (exits : list Action) : Prop :=
  Forall2 (λ a kv, ∃ ok, a = ActWrite (websocket kv.2) (messageExit k) ok)
    exits (map_to_list room).

(** ** A room to run the handler in *)

(** Tenant [acme], room [lobby]: [B] on transport 1 and [C] on transport
    2 are registered; [A] connects on transport 0.  [D] sits in another
    room of the same tenant. *)
Definition sessA : pionSession := mkSession 0 (mkClaim "acme" "lobby" "A").
Definition sessB : pionSession := mkSession 1 (mkClaim "acme" "lobby" "B").
Definition sessC : pionSession := mkSession 2 (mkClaim "acme" "lobby" "C").
Definition sessD : pionSession := mkSession 3 (mkClaim "acme" "attic" "D").

Definition lobby : World :=
  mkWorld {[ ("acme", "lobby") := {[ "B" := sessB; "C" := sessC ]};
             ("acme", "attic") := {[ "D" := sessD ]} ]} ∅ [] [].

(** [lobby] with [A] registered as well. *)
Definition lobbyA : World :=
  mkWorld (putSession "acme" "lobby" "A" sessA (rooms lobby)) ∅ [] [].

(** A token validation: one token per participant, and one whose claims
    lack the room. *)
Definition validate (authToken : string) : option PionClaim :=
  if decide (authToken = "tokenA") then Some (claims sessA)
  else if decide (authToken = "tokenB") then Some (claims sessB)
  else if decide (authToken = "tokenC") then Some (claims sessC)
  else if decide (authToken = "noRoom") then Some (mkClaim "acme" "" "E")
  else None.

Definition requestA : Request := mkRequest (Some 0) ["tokenA"].

(** A second connection that presents the key of [A], and the request
    of [B]. *)
Definition sessA' : pionSession := mkSession 5 (mkClaim "acme" "lobby" "A").

Definition requestB : Request := mkRequest (Some 1) ["tokenB"].

(** ** Reading the event loop *)

(** The transport [c] is the session's own or that of a session
    registered in the session's (tenant, room) in [w]. *)
Definition inScope (session : pionSession) (w : World) (c : nat) : Prop :=
  c = websocket session
  ∨ ∃ k d, GetSession (ApiKeyID (claims session)) (Room (claims session)) k w = Some d
           ∧ c = websocket d.

(** The envelope a relay of [method] writes. *)
Definition relayMessage (method : string) (a : relayArgs) : message :=
  if decide (method = "sdp") then messageSDP a else messageCandidate a.

(** A pong frame, whatever its arguments. *)
Definition isPong (ev : event) : bool :=
  match ev with
  | Inbound (RawObject method _) => bool_decide (method = "pong")
  | _ => false
  end.

(** A step of another goroutine. *)
Definition isEnv (ev : event) : bool :=
  match ev with
  | Env _ => true
  | _ => false
  end.

(** ** Basic facts *)

Lemma since_app w w' t : trace w' = trace w ++ t → since w w' = t.
Proof. unfold since. intros ->. by rewrite drop_app_length. Qed.

Lemma writes_since w w' t : writes w w' t → since w w' = t.
Proof. intros (_ & _ & ?). by apply since_app. Qed.

Lemma writes_refl w : writes w w [].
Proof. unfold writes. by rewrite app_nil_r. Qed.

Lemma writes_trans w1 w2 w3 t1 t2 :
  writes w1 w2 t1 → writes w2 w3 t2 → writes w1 w3 (t1 ++ t2).
Proof.
  intros (Hr1 & Hb1 & Ht1) (Hr2 & Hb2 & Ht2). unfold writes.
  rewrite Hr2, Hb2, Ht2, Ht1. by rewrite <-(assoc_L (++)).
Qed.

Lemma WriteJSON_result s m w :
  (WriteJSON s m w).1 = (if decide (websocket s ∈ broken w) then Some ErrTransport else None).
Proof. unfold WriteJSON. by case_decide. Qed.

Lemma WriteJSON_writes s m w :
  writes w (WriteJSON s m w).2
    [ActWrite (websocket s) m (bool_decide (websocket s ∉ broken w))].
Proof.
  unfold WriteJSON, writes. case_decide; simpl.
  - by rewrite bool_decide_eq_false_2 by (intros Hn; by apply Hn).
  - by rewrite bool_decide_eq_true_2.
Qed.

Lemma println_writes line w : writes w (println line w).2 [].
Proof. unfold println, writes; simpl. by rewrite app_nil_r. Qed.

Lemma members_fold (k : string) (l : list (string * pionSession)) (acc : list string) :
  foldl (λ acc kv, if decide (kv.1 ≠ k) then acc ++ [kv.1] else acc) acc l
  = acc ++ filter (λ k', k' ≠ k) l.*1.
Proof.
  revert acc. induction l as [|[k' v] l IH]; intros acc; simpl.
  - by rewrite app_nil_r.
  - rewrite IH, filter_cons. simpl. case_decide; [|done].
    by rewrite <-(assoc_L (++)).
Qed.

Lemma sendMembers_writes session w :
  writes w (sendMembers session w).2
    [ActWrite (websocket session)
       (messageMembers
          (others (SessionKey (claims session))
             (default ∅ (GetRoom (ApiKeyID (claims session)) (Room (claims session)) w))))
       (bool_decide (websocket session ∉ broken w))].
Proof.
  unfold sendMembers.
  destruct (GetRoom _ _ w) as [room|]; simpl.
  - rewrite members_fold. apply WriteJSON_writes.
  - unfold others. rewrite map_to_list_empty. apply WriteJSON_writes.
Qed.

Lemma sendMembers_result session w :
  (sendMembers session w).1
  = (if decide (websocket session ∈ broken w) then Some ErrTransport else None).
Proof. unfold sendMembers. apply WriteJSON_result. Qed.

Lemma elem_of_others k k' (room : gmap string pionSession) :
  k' ∈ others k room ↔ is_Some (room !! k') ∧ k' ≠ k.
Proof.
  unfold others. rewrite list_elem_of_filter, list_elem_of_fmap. split.
  - intros [Hne ([k2 v] & -> & Hin)]. apply elem_of_map_to_list in Hin. eauto.
  - intros [[v Hv] Hne]. split; [done|].
    exists (k', v). split; [done|]. by apply elem_of_map_to_list.
Qed.

Lemma NoDup_others k (room : gmap string pionSession) : NoDup (others k room).
Proof. unfold others. apply NoDup_filter, NoDup_fst_map_to_list. Qed.

(** *** The relay *)

Lemma sendSdp_found session raw a dstConn w :
  unmarshalRelay raw = Some a →
  GetSession (ApiKeyID (claims session)) (Room (claims session)) (Dst a) w = Some dstConn →
  sendSdp session raw w
  = WriteJSON dstConn
      (messageSDP (mkArgs (SessionKey (claims session)) (Dst a) (Payload a))) w.
Proof. intros Ha Hd. unfold sendSdp. rewrite Ha. simpl. by rewrite Hd. Qed.

Lemma sendCandidate_found session raw a dstConn w :
  unmarshalRelay raw = Some a →
  GetSession (ApiKeyID (claims session)) (Room (claims session)) (Dst a) w = Some dstConn →
  sendCandidate session raw w
  = WriteJSON dstConn
      (messageCandidate (mkArgs (SessionKey (claims session)) (Dst a) (Payload a))) w.
Proof. intros Ha Hd. unfold sendCandidate. rewrite Ha. simpl. by rewrite Hd. Qed.

Lemma sendSdp_absent session raw a w :
  unmarshalRelay raw = Some a →
  GetSession (ApiKeyID (claims session)) (Room (claims session)) (Dst a) w = None →
  sendSdp session raw w = (Some ErrNoEntry, w).
Proof. intros Ha Hd. unfold sendSdp. rewrite Ha. simpl. by rewrite Hd. Qed.

Lemma sendCandidate_absent session raw a w :
  unmarshalRelay raw = Some a →
  GetSession (ApiKeyID (claims session)) (Room (claims session)) (Dst a) w = None →
  sendCandidate session raw w = (Some ErrNoEntry, w).
Proof. intros Ha Hd. unfold sendCandidate. rewrite Ha. simpl. by rewrite Hd. Qed.

Lemma sendSdp_loop session raw w :
  ∃ t, writes w (sendSdp session raw w).2 t ∧ Forall (loop_action session) t.
Proof.
  unfold sendSdp. destruct (unmarshalRelay raw) as [a|]; simpl.
  - destruct (GetSession _ _ _ w) as [d|].
    + eexists. split; [apply WriteJSON_writes|]. by repeat constructor.
    + exists []. split; [apply writes_refl|constructor].
  - exists []. split; [apply writes_refl|constructor].
Qed.

Lemma sendCandidate_loop session raw w :
  ∃ t, writes w (sendCandidate session raw w).2 t ∧ Forall (loop_action session) t.
Proof.
  unfold sendCandidate. destruct (unmarshalRelay raw) as [a|]; simpl.
  - destruct (GetSession _ _ _ w) as [d|].
    + eexists. split; [apply WriteJSON_writes|]. by repeat constructor.
    + exists []. split; [apply writes_refl|constructor].
  - exists []. split; [apply writes_refl|constructor].
Qed.

(** *** The dispatcher *)

Lemma handleClientMessage_members session args w :
  handleClientMessage session (RawObject "members" args) w
  = (Wrap (sendMembers session w).1 "sendMembers failed", (sendMembers session w).2).
Proof. unfold handleClientMessage. run. by destruct (sendMembers session w). Qed.

Lemma handleClientMessage_sdp session args w :
  handleClientMessage session (RawObject "sdp" args) w
  = (Wrap (sendSdp session (RawObject "sdp" args) w).1 "sendSdp failed",
     (sendSdp session (RawObject "sdp" args) w).2).
Proof. unfold handleClientMessage. run. by destruct (sendSdp session _ w). Qed.

Lemma handleClientMessage_candidate session args w :
  handleClientMessage session (RawObject "candidate" args) w
  = (Wrap (sendCandidate session (RawObject "candidate" args) w).1 "sendCandidate failed",
     (sendCandidate session (RawObject "candidate" args) w).2).
Proof. unfold handleClientMessage. run. by destruct (sendCandidate session _ w). Qed.

Lemma handleClientMessage_pong session args w :
  handleClientMessage session (RawObject "pong" args) w = (None, w).
Proof. done. Qed.

Lemma handleClientMessage_invalid session w :
  handleClientMessage session RawInvalid w = (Some ErrUnmarshal, w).
Proof. done. Qed.

Lemma handleClientMessage_unknown session method args w :
  method ∉ ["members"; "sdp"; "candidate"; "pong"] →
  handleClientMessage session (RawObject method args) w
  = (Some (ErrUnknownMethod method), w).
Proof.
  intros Hm. unfold handleClientMessage; simpl.
  rewrite !decide_False; [done|..]; intros ->; apply Hm;
    rewrite !elem_of_cons; intuition.
Qed.

Lemma handleClientMessage_loop session raw w :
  ∃ t, writes w (handleClientMessage session raw w).2 t ∧ Forall (loop_action session) t.
Proof.
  destruct raw as [|method args].
  { exists []. split; [apply writes_refl|constructor]. }
  destruct (decide (method = "members")) as [->|?].
  { rewrite handleClientMessage_members. simpl. eexists.
    split; [apply sendMembers_writes|]. by repeat constructor. }
  destruct (decide (method = "sdp")) as [->|?].
  { rewrite handleClientMessage_sdp. apply sendSdp_loop. }
  destruct (decide (method = "candidate")) as [->|?].
  { rewrite handleClientMessage_candidate. apply sendCandidate_loop. }
  destruct (decide (method = "pong")) as [->|?].
  { exists []. split; [apply writes_refl|constructor]. }
  rewrite handleClientMessage_unknown
    by (rewrite !elem_of_cons, elem_of_nil; tauto).
  exists []. split; [apply writes_refl|constructor].
Qed.

(** *** The event loop *)

Lemma sendPing_writes session w :
  writes w (sendPing session w).2
    [ActWrite (websocket session) messagePing (bool_decide (websocket session ∉ broken w))].
Proof. apply WriteJSON_writes. Qed.

Lemma sendPing_result session w :
  (sendPing session w).1
  = (if decide (websocket session ∈ broken w) then Some ErrTransport else None).
Proof. apply WriteJSON_result. Qed.

Lemma handleWS_tick session evs w :
  handleWS session (Tick :: evs) w
  = if decide (websocket session ∈ broken w)
    then (Some (PingFailed ErrTransport), (sendPing session w).2)
    else handleWS session evs (sendPing session w).2.
Proof.
  simpl. run. pose proof (sendPing_result session w) as Hr.
  destruct (sendPing session w) as [err w']. simpl in *. subst err.
  by case_decide.
Qed.

Lemma handleWS_inbound session raw evs w :
  handleWS session (Inbound raw :: evs) w
  = match (handleClientMessage session raw w).1 with
    | Some e => (Some (HandlerFailed e), (handleClientMessage session raw w).2)
    | None => handleWS session evs (handleClientMessage session raw w).2
    end.
Proof.
  simpl. run. destruct (handleClientMessage session raw w) as [[e|] w']; done.
Qed.

Lemma handleWS_app session pre evs w :
  handleWS session (pre ++ evs) w
  = match handleWS session pre w with
    | (None, w') => handleWS session evs w'
    | res => res
    end.
Proof.
  revert w. induction pre as [|ev pre IH]; intros w; [done|].
  destruct ev as [|raw| |e].
  - rewrite <-app_comm_cons, !handleWS_tick. case_decide; [done|]. apply IH.
  - rewrite <-app_comm_cons, !handleWS_inbound.
    destruct (handleClientMessage session raw w).1; [done|]. apply IH.
  - done.
  - simpl. apply IH.
Qed.

(** All the loop does is [loop_action]s. *)
Lemma handleWS_loop session evs w :
  ∃ t, trace (handleWS session evs w).2 = trace w ++ t ∧ Forall (loop_action session) t.
Proof.
  revert w. induction evs as [|ev evs IH]; intros w.
  { exists []. simpl. by rewrite app_nil_r. }
  destruct ev as [|raw| |e].
  - rewrite handleWS_tick.
    destruct (sendPing_writes session w) as (_ & _ & Ht).
    case_decide; simpl.
    + eexists. split; [exact Ht|]. by repeat constructor.
    + destruct (IH (sendPing session w).2) as (t & Ht' & Hall).
      eexists. rewrite Ht', Ht, <-(assoc_L (++)). split; [done|].
      by repeat constructor.
  - rewrite handleWS_inbound.
    destruct (handleClientMessage_loop session raw w) as (t1 & (_ & _ & Ht1) & Hall1).
    destruct (handleClientMessage session raw w).1; simpl.
    + by exists t1.
    + destruct (IH (handleClientMessage session raw w).2) as (t & Ht' & Hall).
      exists (t1 ++ t). rewrite Ht', Ht1, <-(assoc_L (++)). split; [done|].
      by apply Forall_app.
  - exists []. simpl. by rewrite app_nil_r.
  - simpl. destruct (IH (interfere e w)) as (t & Ht & Hall).
    exists t. split; [|done]. rewrite Ht. by destruct e.
Qed.

Lemma handleWS_stops session evs w :
  ReadError ∈ evs → is_Some (handleWS session evs w).1.
Proof.
  revert w. induction evs as [|ev evs IH]; intros w Hin.
  { by apply elem_of_nil in Hin. }
  destruct ev as [|raw| |e].
  - rewrite handleWS_tick. case_decide; [by eexists|].
    apply IH. by apply elem_of_cons in Hin as [|].
  - rewrite handleWS_inbound.
    destruct (handleClientMessage session raw w).1; [by eexists|].
    apply IH. by apply elem_of_cons in Hin as [|].
  - by eexists.
  - simpl. apply IH. by apply elem_of_cons in Hin as [|].
Qed.

(** *** The teardown *)

Lemma exitTo_world k k' v w :
  (exitTo k k' v w).2
  = mkWorld (rooms w) (broken w)
      (trace w ++ [ActWrite (websocket v) (messageExit k)
                     (bool_decide (websocket v ∉ broken w))])
      (logs w ++ if decide (websocket v ∈ broken w)
                 then ["Failed to announceExit"] else []).
Proof.
  unfold exitTo, mbind, M_bind, WriteJSON.
  case_decide as Hb; simpl.
  - by rewrite bool_decide_eq_false_2 by (intros Hn; by apply Hn).
  - by rewrite bool_decide_eq_true_2, app_nil_r.
Qed.

Lemma Range_cons {K V} (f : K → V → M unit) k v l w :
  (Range f ((k, v) :: l) w).2 = (Range f l (f k v w).2).2.
Proof. simpl. unfold mbind, M_bind. by destruct (f k v w). Qed.

Lemma Range_exit (k : string) (l : list (string * pionSession)) w :
  (Range (exitTo k) l w).2
  = mkWorld (rooms w) (broken w)
      (trace w ++ ((λ kv, ActWrite (websocket kv.2) (messageExit k)
                            (bool_decide (websocket kv.2 ∉ broken w))) <$> l))
      (logs w ++ replicate (length (filter (λ kv, websocket kv.2 ∈ broken w) l))
                   "Failed to announceExit").
Proof.
  revert w. induction l as [|[k' v] l IH]; intros w.
  { simpl. rewrite !app_nil_r. by destruct w. }
  rewrite Range_cons, IH, exitTo_world, filter_cons. simpl.
  rewrite <-!(assoc_L (++)). do 2 f_equal.
  case_decide; simpl; done.
Qed.

Lemma announceExit_world t r k w :
  (announceExit t r k w).2
  = mkWorld (rooms w) (broken w)
      (trace w ++ exitWrites k w (default ∅ (GetRoom t r w)))
      (logs w ++ replicate (exitFailures w (default ∅ (GetRoom t r w)))
                   "Failed to announceExit").
Proof.
  unfold announceExit, exitWrites, exitFailures. destruct (GetRoom t r w) as [room|]; simpl.
  - apply Range_exit.
  - rewrite map_to_list_empty. simpl. rewrite !app_nil_r. by destruct w.
Qed.

Lemma DestroySession_result t r k w :
  (DestroySession t r k w).1
  = (match GetSession t r k w with Some _ => None | None => Some ErrSessionAbsent end).
Proof. unfold DestroySession. by destruct (GetSession t r k w). Qed.

Lemma DestroySession_world t r k w :
  let w' := (DestroySession t r k w).2 in
  default ∅ (GetRoom t r w') = remaining t r k w
  ∧ broken w' = broken w
  ∧ trace w' = trace w ++ [ActDestroy t r k (bool_decide (is_Some (GetSession t r k w)))]
  ∧ logs w' = logs w.
Proof.
  unfold DestroySession, remaining, GetSession, GetRoom, removeSession.
  destruct (rooms w !! (t, r)) as [room|] eqn:Hroom; simpl.
  - destruct (room !! k) as [s|] eqn:Hk; simpl.
    + by rewrite ?Hroom, lookup_insert_eq.
    + rewrite ?Hroom. simpl. by rewrite delete_id.
  - rewrite ?Hroom. simpl. by rewrite delete_empty.
Qed.

Lemma DestroySession_other t r k t' r' w :
  (t', r') ≠ (t, r) →
  GetRoom t' r' (DestroySession t r k w).2 = GetRoom t' r' w.
Proof.
  intros Hne. unfold DestroySession, GetSession, GetRoom, removeSession.
  destruct (rooms w !! (t, r)) as [room|] eqn:Hroom; simpl; [|done].
  destruct (room !! k); simpl; [|done].
  by rewrite lookup_insert_ne.
Qed.

Lemma logError_world err msg w :
  logError err msg w
  = (tt, mkWorld (rooms w) (broken w) (trace w)
           (logs w ++ match err with Some _ => [msg] | None => [] end)).
Proof.
  destruct err; simpl; [done|]. unfold mret, M_ret. rewrite app_nil_r. by destruct w.
Qed.

(** The deferred function, step by step. *)
Lemma teardown_world session w :
  let t := ApiKeyID (claims session) in
  let r := Room (claims session) in
  let k := SessionKey (claims session) in
  let w' := (teardown session w).2 in
  default ∅ (GetRoom t r w') = remaining t r k w
  ∧ (∀ t' r', (t', r') ≠ (t, r) → GetRoom t' r' w' = GetRoom t' r' w)
  ∧ broken w' = {[websocket session]} ∪ broken w
  ∧ trace w' = trace w ++
      ActDestroy t r k (bool_decide (is_Some (GetSession t r k w)))
      :: exitWrites k w (remaining t r k w) ++ [ActClose (websocket session)].
Proof.
  intros t r k. unfold teardown. fold t r k. unfold mbind, M_bind.
  pose proof (DestroySession_world t r k w) as (Hroom & Hbr & Htr & _).
  pose proof (λ t' r', DestroySession_other t r k t' r' w) as Hother.
  destruct (DestroySession t r k w) as [err w1]. simpl in Hroom, Hbr, Htr, Hother.
  rewrite logError_world.
  set (w2 := mkWorld (rooms w1) (broken w1) (trace w1) _).
  pose proof (announceExit_world t r k w2) as Hw3.
  destruct (announceExit t r k w2) as [[] w3]. simpl in Hw3. subst w3.
  unfold Close. rewrite logError_world. simpl.
  change (GetRoom t r w2) with (GetRoom t r w1). rewrite Hroom.
  unfold exitWrites. simpl. rewrite Hbr, Htr.
  split_and!; [done|exact Hother|done|].
  by rewrite <-!(assoc_L (++)).
Qed.

Lemma teardown_logs session w :
  let t := ApiKeyID (claims session) in
  let r := Room (claims session) in
  let k := SessionKey (claims session) in
  logs (teardown session w).2
  = logs w
    ++ match GetSession t r k w with
       | Some _ => []
       | None => ["Failed to close destroy session"]
       end
    ++ replicate (exitFailures w (remaining t r k w)) "Failed to announceExit"
    ++ (if decide (websocket session ∈ broken w)
        then ["Failed to close websocket"] else []).
Proof.
  intros t r k. unfold teardown. fold t r k. unfold mbind, M_bind.
  pose proof (DestroySession_world t r k w) as (Hroom & Hbr & _ & Hlog).
  pose proof (DestroySession_result t r k w) as Hres.
  destruct (DestroySession t r k w) as [err w1]. simpl in Hroom, Hbr, Hlog, Hres.
  rewrite logError_world.
  set (w2 := mkWorld (rooms w1) (broken w1) (trace w1) _).
  pose proof (announceExit_world t r k w2) as Hw3.
  destruct (announceExit t r k w2) as [[] w3]. simpl in Hw3. subst w3.
  unfold Close. rewrite logError_world. simpl.
  change (GetRoom t r w2) with (GetRoom t r w1). rewrite Hroom.
  unfold exitFailures. simpl. rewrite Hbr, Hlog, Hres, <-!(assoc_L (++)).
  do 2 f_equal.
  - by destruct (GetSession t r k w).
  - f_equal. by case_decide.
Qed.

Lemma elem_of_exitWrites k w (room : gmap string pionSession) k' s :
  room !! k' = Some s →
  ActWrite (websocket s) (messageExit k) (bool_decide (websocket s ∉ broken w))
  ∈ exitWrites k w room.
Proof.
  intros Hs. unfold exitWrites. apply list_elem_of_fmap.
  exists (k', s). split; [done|]. by apply elem_of_map_to_list.
Qed.

Lemma length_exitWrites k w (room : gmap string pionSession) :
  length (exitWrites k w room) = size room.
Proof. unfold exitWrites. by rewrite length_fmap, length_map_to_list. Qed.

Lemma exitFailures_pos w (room : gmap string pionSession) k' s :
  room !! k' = Some s → websocket s ∈ broken w → 0 < exitFailures w room.
Proof.
  intros Hs Hb. unfold exitFailures.
  assert ((k', s) ∈ filter (λ kv, websocket kv.2 ∈ broken w) (map_to_list room)) as Hin.
  { apply list_elem_of_filter. split; [done|]. by apply elem_of_map_to_list. }
  destruct (filter _ _); [by apply elem_of_nil in Hin|simpl; lia].
Qed.

(** *** The lifecycle *)

Lemma assertClaims_None cl :
  assertClaims cl = None ↔ ApiKeyID cl ≠ "" ∧ SessionKey cl ≠ "" ∧ Room cl ≠ "".
Proof.
  unfold assertClaims. repeat case_decide; split; try done; intros (? & ? & ?); done.
Qed.

Section LifecycleFacts.

Variable GetClaims : string → option PionClaim.

Lemma sessionOf_inv r session :
  sessionOf GetClaims r = Some session →
  ∃ authToken,
    upgrade r = Some (websocket session) ∧ authTokens r = [authToken]
    ∧ GetClaims authToken = Some (claims session)
    ∧ assertClaims (claims session) = None.
Proof.
  unfold sessionOf. intros H.
  destruct (upgrade r) as [c|]; [|done].
  destruct (authTokens r) as [|tok [|??]]; try done.
  destruct (GetClaims tok) as [cl|] eqn:Hcl; [|done].
  destruct (assertClaims cl) eqn:Hok; [done|].
  injection H as <-. by exists tok.
Qed.

(** From the registration on, for a request that gets that far. *)
Lemma lifecycle_active r session evs w :
  sessionOf GetClaims r = Some session →
  HandleRootWSUpgrade GetClaims r evs w
  = let w1 := (StoreSession (ApiKeyID (claims session)) (Room (claims session))
                 (SessionKey (claims session)) session w).2 in
    match sendMembers session w1 with
    | (Some e, w2) => (MembersFailed e, (teardown session w2).2)
    | (None, w2) =>
        match handleWS session evs w2 with
        | (Some why, w3) => (Closed why, (teardown session w3).2)
        | (None, w3) => (Serving, w3)
        end
    end.
Proof.
  intros (tok & Hup & Htok & Hcl & Hok)%sessionOf_inv.
  unfold HandleRootWSUpgrade. rewrite Hup, Htok, Hcl, Hok.
  destruct session as [c cl]. simpl. unfold mbind, M_bind, mret, M_ret.
  unfold StoreSession, emit. simpl.
  destruct (sendMembers _ _) as [[e|] w2].
  - by destruct (teardown _ w2).
  - destruct (handleWS _ evs w2) as [[why|] w3]; [|done].
    by destruct (teardown _ w3).
Qed.

(** A connection that is served goes on with the events that follow. *)
Lemma lifecycle_extend r session pre evs w w1 :
  sessionOf GetClaims r = Some session →
  HandleRootWSUpgrade GetClaims r pre w = (Serving, w1) →
  HandleRootWSUpgrade GetClaims r (pre ++ evs) w
  = match handleWS session evs w1 with
    | (Some why, w2) => (Closed why, (teardown session w2).2)
    | (None, w2) => (Serving, w2)
    end.
Proof.
  intros Hs. rewrite !(lifecycle_active _ _ _ _ Hs). simpl.
  destruct (sendMembers session _) as [[e|] w2]; [done|].
  rewrite handleWS_app.
  destruct (handleWS session pre w2) as [[why|] w3]; [done|].
  by intros [= ->].
Qed.

(** A request that does not get as far as a session leaves directory,
    transports and trace as they were. *)
Lemma lifecycle_rejected r evs w :
  sessionOf GetClaims r = None →
  let res := HandleRootWSUpgrade GetClaims r evs w in
  rooms res.2 = rooms w ∧ broken res.2 = broken w ∧ trace res.2 = trace w
  ∧ res.1 = match upgrade r, authTokens r with
            | None, _ => UpgradeFailed
            | Some _, [authToken] =>
                match GetClaims authToken with
                | None => GetClaimsFailed
                | Some cl =>
                    match assertClaims cl with
                    | Some e => ClaimsRejected e
                    | None => Serving
                    end
                end
            | Some _, l => BadTokenCount (length l)
            end.
Proof.
  unfold sessionOf, HandleRootWSUpgrade.
  destruct (upgrade r) as [c|]; [|done].
  destruct (authTokens r) as [|tok [|??]]; try done.
  destruct (GetClaims tok) as [cl|]; [|done].
  destruct (assertClaims cl); done.
Qed.

End LifecycleFacts.

Lemma GetSession_room t r k w :
  GetSession t r k w = default ∅ (GetRoom t r w) !! k.
Proof. unfold GetSession. by destruct (GetRoom t r w). Qed.

Lemma count_app p t1 t2 : count p (t1 ++ t2) = count p t1 + count p t2.
Proof. unfold count. by rewrite List.filter_app, length_app. Qed.

Lemma count_none p tr : Forall (λ a, p a = false) tr → count p tr = 0.
Proof.
  unfold count. induction 1 as [|a tr Ha _ IH]; [done|].
  simpl. by rewrite Ha.
Qed.

Lemma count_all p tr : Forall (λ a, p a = true) tr → count p tr = length tr.
Proof.
  unfold count. induction 1 as [|a tr Ha _ IH]; [done|].
  simpl. rewrite Ha. simpl. by rewrite IH.
Qed.

Lemma loop_action_kind session a :
  loop_action session a → isDestroy a = false ∧ isClose a = false ∧ isExit a = false.
Proof. destruct a as [| |c m ok|]; try done. by destruct m. Qed.

Lemma count_loop session body :
  Forall (loop_action session) body →
  count isDestroy body = 0 ∧ count isClose body = 0 ∧ count isExit body = 0.
Proof.
  intros Hall. split_and!; apply count_none; eapply Forall_impl; try exact Hall;
    intros a Ha; by apply (loop_action_kind session).
Qed.

Lemma exitsTo_exitWrites k w room : exitsTo k room (exitWrites k w room).
Proof.
  unfold exitsTo, exitWrites. apply Forall2_fmap_l, Forall_Forall2_diag.
  apply Forall_forall. intros kv _. by eexists.
Qed.

Lemma count_exits k room exits :
  exitsTo k room exits →
  count isDestroy exits = 0 ∧ count isClose exits = 0
  ∧ count isExit exits = length exits.
Proof.
  unfold exitsTo. intros H.
  assert (Forall (λ a, ∃ c ok, a = ActWrite c (messageExit k) ok) exits) as Hall.
  { induction H as [|a kv ?? [ok ->] _ IH]; constructor; eauto. }
  split_and!; [apply count_none|apply count_none|apply count_all];
    (eapply Forall_impl; [exact Hall|]); by intros a (c & ok & ->).
Qed.

(** ** The properties of the specification *)

(** C1. Every sdp or candidate envelope the event loop of a session
    writes, to whichever transport and whatever the client put in [src],
    carries the session's own participant key as its [src]. *)
Theorem relay_src_overwritten session evs w c m ok a :
  ActWrite c m ok ∈ since w (handleWS session evs w).2 →
  relayArgsOf m = Some a →
  Src a = SessionKey (claims session).
Proof.
  intros Hin Ha.
  destruct (handleWS_loop session evs w) as (t & Ht & Hall).
  rewrite (since_app _ _ _ Ht) in Hin.
  rewrite Forall_forall in Hall. specialize (Hall _ Hin).
  destruct m; simpl in *; by simplify_eq.
Qed.

(** A forged [src] on an sdp and on a candidate for [B]: [B] is written
    both with [src] set to [A]. *)
Lemma relay_src_overwritten_witness :
  let evs := [Inbound (RawObject "sdp" (Some (mkArgs "forged" "B" "offer")));
              Inbound (RawObject "candidate" (Some (mkArgs "forged" "B" "ice")))] in
  since lobbyA (handleWS sessA evs lobbyA).2
  = [ActWrite 1 (messageSDP (mkArgs "A" "B" "offer")) true;
     ActWrite 1 (messageCandidate (mkArgs "A" "B" "ice")) true]
  ∧ Src (mkArgs "A" "B" "ice") = SessionKey (claims sessA).
Proof.
  split; [by vm_compute|].
  apply (relay_src_overwritten sessA
           [Inbound (RawObject "sdp" (Some (mkArgs "forged" "B" "offer")));
            Inbound (RawObject "candidate" (Some (mkArgs "forged" "B" "ice")))]
           lobbyA 1 (messageCandidate (mkArgs "A" "B" "ice")) true).
  - vm_compute. apply list_elem_of_In. right. left. reflexivity.
  - reflexivity.
Defined.

(** C3. A members request is answered to the caller alone, with a list
    that holds, once each, exactly the keys registered in the caller's
    (tenant, room) other than the caller's own; the caller's key is
    never in it. *)
Theorem members_self_exclusion session args w :
  let t := ApiKeyID (claims session) in
  let r := Room (claims session) in
  let k := SessionKey (claims session) in
  ∃ l, since w (handleClientMessage session (RawObject "members" args) w).2
       = [ActWrite (websocket session) (messageMembers l)
            (bool_decide (websocket session ∉ broken w))]
     ∧ NoDup l
     ∧ (∀ k', k' ∈ l ↔ is_Some (GetSession t r k' w) ∧ k' ≠ k)
     ∧ k ∉ l.
Proof.
  intros t r k. rewrite handleClientMessage_members. simpl.
  eexists. split; [apply writes_since, sendMembers_writes|].
  split; [apply NoDup_others|].
  assert (∀ k', k' ∈ others k (default ∅ (GetRoom t r w))
                ↔ is_Some (GetSession t r k' w) ∧ k' ≠ k) as Hiff.
  { intros k'. rewrite elem_of_others. by rewrite GetSession_room. }
  split; [exact Hiff|]. intros Hin. apply Hiff in Hin. by destruct Hin.
Qed.

(** *** The shape of a whole invocation *)

Section Shape.

Variable GetClaims : string → option PionClaim.

(** What an invocation that registered its session has done: the
    registration, then actions of the loop, and, unless it is still
    served, the deferred function, once. *)
Lemma lifecycle_shape r session evs w :
  sessionOf GetClaims r = Some session →
  let t := ApiKeyID (claims session) in
  let r' := Room (claims session) in
  let k := SessionKey (claims session) in
  let c := websocket session in
  let res := HandleRootWSUpgrade GetClaims r evs w in
  ∃ body, Forall (loop_action session) body ∧
    match res.1 with
    | Serving => since w res.2 = ActStore t r' k c :: body
    | MembersFailed _ | Closed _ =>
        ∃ found exits,
          since w res.2
          = ActStore t r' k c :: body ++ ActDestroy t r' k found :: exits ++ [ActClose c]
          ∧ exitsTo k (default ∅ (GetRoom t r' res.2)) exits
          ∧ GetSession t r' k res.2 = None
    | _ => False
    end.
Proof.
  intros Hs t r' k c res. subst res.
  rewrite (lifecycle_active _ _ _ _ _ Hs). fold t r' k. cbv zeta.
  remember (StoreSession t r' k session w).2 as w1 eqn:Ew1.
  assert (trace w1 = trace w ++ [ActStore t r' k c]) as Hw1 by by subst w1.
  clear Ew1.
  pose proof (sendMembers_writes session w1) as (_ & _ & Hm).
  assert (∀ w2 body, trace w2 = trace w ++ ActStore t r' k c :: body →
    ∃ found exits,
      since w (teardown session w2).2
      = ActStore t r' k c :: body ++ ActDestroy t r' k found :: exits ++ [ActClose c]
      ∧ exitsTo k (default ∅ (GetRoom t r' (teardown session w2).2)) exits
      ∧ GetSession t r' k (teardown session w2).2 = None) as Htd.
  { intros w2 body Hw2.
    destruct (teardown_world session w2) as (Hroom & _ & _ & Htr).
    fold t r' k c in Hroom, Htr.
    eexists _, _. split_and!.
    - apply since_app. rewrite Htr, Hw2.
      rewrite <-(assoc_L (++)). simpl. reflexivity.
    - rewrite Hroom. apply exitsTo_exitWrites.
    - rewrite GetSession_room, Hroom. apply lookup_delete_eq. }
  destruct (sendMembers session w1) as [[e|] w2]; cbn [fst snd] in *.
  - eexists. split; [|apply Htd; rewrite Hm, Hw1, <-(assoc_L (++)); reflexivity].
    by repeat constructor.
  - destruct (handleWS_loop session evs w2) as (body & Hb & Hall).
    eexists (_ :: body). split; [constructor; [|exact Hall]|].
    2:{ destruct (handleWS session evs w2) as [[why|] w3]; cbn [fst snd] in *.
        - apply Htd. rewrite Hb, Hm, Hw1, <-!(assoc_L (++)). reflexivity.
        - apply since_app. rewrite Hb, Hm, Hw1, <-!(assoc_L (++)). reflexivity. }
    done.
Qed.

Lemma lifecycle_stops r session evs w :
  sessionOf GetClaims r = Some session →
  ReadError ∈ evs →
  (HandleRootWSUpgrade GetClaims r evs w).1 ≠ Serving.
Proof.
  intros Hs Hin. rewrite (lifecycle_active _ _ _ _ _ Hs). cbv zeta.
  destruct (sendMembers session _) as [[e|] w2]; [done|].
  pose proof (handleWS_stops session evs w2 Hin) as [why Hwhy].
  destruct (handleWS session evs w2) as [[why'|] w3]; done.
Qed.

End Shape.

Lemma lifecycle_closes (GetClaims : string → option PionClaim) r session evs w :
  sessionOf GetClaims r = Some session →
  let res := HandleRootWSUpgrade GetClaims r evs w in
  res.1 ≠ Serving →
  ∀ c, ActClose c ∈ since w res.2 ↔ c = websocket session.
Proof.
  intros Hs res Hres c.
  destruct (lifecycle_shape GetClaims r session evs w Hs) as (body & Hall & Hshape).
  fold res in Hshape.
  assert (∃ found exits,
    since w res.2
    = ActStore (ApiKeyID (claims session)) (Room (claims session))
        (SessionKey (claims session)) (websocket session)
      :: body ++ ActDestroy (ApiKeyID (claims session)) (Room (claims session))
                   (SessionKey (claims session)) found
      :: exits ++ [ActClose (websocket session)]
    ∧ exitsTo (SessionKey (claims session))
        (default ∅ (GetRoom (ApiKeyID (claims session)) (Room (claims session)) res.2))
        exits) as (found & exits & -> & Hex).
  { destruct res.1; try done; destruct Hshape as (? & ? & ? & ? & _); eauto. }
  rewrite elem_of_cons, elem_of_app, elem_of_cons, elem_of_app, list_elem_of_singleton.
  split; [|intros ->; by repeat right].
  intros [?|[Hin|[?|[Hin|?]]]]; try done; [| |by simplify_eq].
  - rewrite Forall_forall in Hall. by apply Hall in Hin.
  - unfold exitsTo in Hex. apply Forall2_Forall_l with (Q := λ a, isClose a = false) in Hex.
    + rewrite Forall_forall in Hex. by apply Hex in Hin.
    + apply Forall_forall. by intros kv _ a [ok ->].
Qed.

(** C2. An invocation that registered its session runs the deferred
    teardown exactly once when it ends, whatever ended it, and not
    before: the trace is the registration, actions of the loop, then
    one [DestroySession] of the session's key, one write of the exit of
    that key per session that remains in the (tenant, room), and one
    close of the session's transport, in that order.  A loop that gets
    the stop signal does end. *)
Theorem teardown_exactly_once (GetClaims : string → option PionClaim) r session evs w :
  sessionOf GetClaims r = Some session →
  let t := ApiKeyID (claims session) in
  let r' := Room (claims session) in
  let k := SessionKey (claims session) in
  let c := websocket session in
  let res := HandleRootWSUpgrade GetClaims r evs w in
  let tr := since w res.2 in
  (ReadError ∈ evs → res.1 ≠ Serving)
  ∧ (res.1 = Serving →
       count isDestroy tr = 0 ∧ count isExit tr = 0 ∧ count isClose tr = 0)
  ∧ (res.1 ≠ Serving →
       ∃ body found exits,
         tr = ActStore t r' k c :: body ++ ActDestroy t r' k found :: exits ++ [ActClose c]
         ∧ Forall (loop_action session) body
         ∧ exitsTo k (default ∅ (GetRoom t r' res.2)) exits
         ∧ GetSession t r' k res.2 = None
         ∧ count isDestroy tr = 1
         ∧ count isExit tr = size (default ∅ (GetRoom t r' res.2))
         ∧ count isClose tr = 1).
Proof.
  intros Hs t r' k c res tr.
  split; [intros Hin; by apply (lifecycle_stops GetClaims r session)|].
  destruct (lifecycle_shape GetClaims r session evs w Hs) as (body & Hall & Hshape).
  fold t r' k c res in Hshape. fold tr in Hshape.
  destruct (count_loop session body Hall) as (Hd & Hc & He).
  assert (∀ p, count p tr = count p (ActStore t r' k c :: body) → p (ActStore t r' k c) = false →
               count p body = 0 → count p tr = 0) as Hzero.
  { intros p -> Hp Hb. change (ActStore t r' k c :: body) with ([ActStore t r' k c] ++ body).
    rewrite count_app, Hb. unfold count. simpl. by rewrite Hp. }
  split.
  - intros Hres. rewrite Hres in Hshape.
    split_and!; apply Hzero; by rewrite ?Hshape.
  - intros Hres.
    assert (∃ found exits,
      tr = ActStore t r' k c :: body ++ ActDestroy t r' k found :: exits ++ [ActClose c]
      ∧ exitsTo k (default ∅ (GetRoom t r' res.2)) exits
      ∧ GetSession t r' k res.2 = None) as (found & exits & Htr & Hex & Hgone)
      by (destruct res.1; done).
    exists body, found, exits.
    destruct (count_exits _ _ _ Hex) as (Hxd & Hxc & Hxe).
    assert (∀ p, count p tr
                 = (if p (ActStore t r' k c) then 1 else 0) + count p body
                   + ((if p (ActDestroy t r' k found) then 1 else 0) + count p exits
                      + (if p (ActClose c) then 1 else 0))) as Hcount.
    { intros p. rewrite Htr.
      change (ActStore t r' k c :: body ++ ActDestroy t r' k found :: exits ++ [ActClose c])
        with ([ActStore t r' k c] ++ body ++ [ActDestroy t r' k found] ++ exits ++ [ActClose c]).
      rewrite !count_app. unfold count at 1 3 5. simpl.
      destruct (p (ActStore _ _ _ _)), (p (ActDestroy _ _ _ _)), (p (ActClose _)); simpl; lia. }
    split_and!; try done.
    + rewrite Hcount, Hd, Hxd. done.
    + rewrite Hcount, He, Hxe. simpl.
      unfold exitsTo in Hex. apply Forall2_length in Hex.
      rewrite Hex, length_map_to_list. lia.
    + rewrite Hcount, Hc, Hxc. done.
Qed.

(** [A] joins the lobby, is pinged once and loses its read side: [B]
    and [C] get one exit each, then transport 0 is closed. *)
Lemma teardown_exactly_once_witness :
  sessionOf validate requestA = Some sessA
  ∧ since lobby (HandleRootWSUpgrade validate requestA [Tick; ReadError] lobby).2
    = [ActStore "acme" "lobby" "A" 0;
       ActWrite 0 (messageMembers ["C"; "B"]) true;
       ActWrite 0 messagePing true;
       ActDestroy "acme" "lobby" "A" true;
       ActWrite 2 (messageExit "A") true;
       ActWrite 1 (messageExit "A") true;
       ActClose 0]
  ∧ count isClose
      (since lobby (HandleRootWSUpgrade validate requestA [Tick; ReadError] lobby).2) = 1.
Proof.
  split; [reflexivity|]. split; [by vm_compute|].
  destruct (teardown_exactly_once validate requestA sessA [Tick; ReadError] lobby eq_refl)
    as (_ & _ & Hend).
  destruct Hend as (body & found & exits & _ & _ & _ & _ & _ & _ & Hclose).
  - by vm_compute.
  - exact Hclose.
Defined.

(** Each way out of the loop ends in the same teardown. *)
Example teardown_on_read_failure :
  HandleRootWSUpgrade validate requestA [ReadError] lobby
  = (Closed Stopped, (teardown sessA (HandleRootWSUpgrade validate requestA [] lobby).2).2).
Proof. by vm_compute. Qed.

Example teardown_on_ping_failure :
  let res := HandleRootWSUpgrade validate requestA [Env (TransportDown 0); Tick] lobby in
  res.1 = Closed (PingFailed ErrTransport)
  ∧ since lobby res.2
    = [ActStore "acme" "lobby" "A" 0;
       ActWrite 0 (messageMembers ["C"; "B"]) true;
       ActWrite 0 messagePing false;
       ActDestroy "acme" "lobby" "A" true;
       ActWrite 2 (messageExit "A") true;
       ActWrite 1 (messageExit "A") true;
       ActClose 0].
Proof. by vm_compute. Qed.

Example teardown_on_handler_error :
  let res := HandleRootWSUpgrade validate requestA [Inbound RawInvalid; Tick] lobby in
  res.1 = Closed (HandlerFailed ErrUnmarshal)
  ∧ since lobby res.2
    = [ActStore "acme" "lobby" "A" 0;
       ActWrite 0 (messageMembers ["C"; "B"]) true;
       ActDestroy "acme" "lobby" "A" true;
       ActWrite 2 (messageExit "A") true;
       ActWrite 1 (messageExit "A") true;
       ActClose 0].
Proof. by vm_compute. Qed.

(** A handler error on a served connection ends it: the events after
    the frame are not looked at, and the teardown starts from the world
    the handler left. *)
Lemma lifecycle_handler_error (GetClaims : string → option PionClaim)
    r session pre raw post w w1 e w2 :
  sessionOf GetClaims r = Some session →
  HandleRootWSUpgrade GetClaims r pre w = (Serving, w1) →
  handleClientMessage session raw w1 = (Some e, w2) →
  HandleRootWSUpgrade GetClaims r (pre ++ Inbound raw :: post) w
  = (Closed (HandlerFailed e), (teardown session w2).2).
Proof.
  intros Hs Hpre He.
  rewrite (lifecycle_extend _ _ _ _ _ _ _ Hs Hpre), handleWS_inbound.
  by rewrite He.
Qed.

(** C4. A relay looks its destination up in the sender's own (tenant,
    room) only: when no session has that key there, whatever other
    scopes hold, the handler fails with the error of the absent peer,
    nothing is written, the sender's loop ends and its transport, and
    no other, is closed. *)
Theorem relay_peer_not_found (GetClaims : string → option PionClaim)
    r session pre w w1 method a post :
  sessionOf GetClaims r = Some session →
  HandleRootWSUpgrade GetClaims r pre w = (Serving, w1) →
  method ∈ ["sdp"; "candidate"] →
  GetSession (ApiKeyID (claims session)) (Room (claims session)) (Dst a) w1 = None →
  let raw := RawObject method (Some a) in
  let res := HandleRootWSUpgrade GetClaims r (pre ++ Inbound raw :: post) w in
  ∃ e, handleClientMessage session raw w1 = (Some e, w1)
     ∧ PeerNotFound e
     ∧ res = (Closed (HandlerFailed e), (teardown session w1).2)
     ∧ ∀ c, ActClose c ∈ since w res.2 ↔ c = websocket session.
Proof.
  intros Hs Hpre Hm Hd raw res.
  assert (∃ e, handleClientMessage session raw w1 = (Some e, w1) ∧ PeerNotFound e)
    as (e & He & Hpnf).
  { subst raw. apply elem_of_cons in Hm as [->|Hm].
    - rewrite handleClientMessage_sdp, (sendSdp_absent session _ a) by done.
      by eexists.
    - apply list_elem_of_singleton in Hm as ->.
      rewrite handleClientMessage_candidate, (sendCandidate_absent session _ a) by done.
      by eexists. }
  exists e. split_and!; [done|done|by eapply lifecycle_handler_error|].
  apply lifecycle_closes; [done|].
  fold res. unfold res. by erewrite lifecycle_handler_error.
Qed.

(** [A] relays to [D], who is registered in the attic and not in the
    lobby: [A]'s connection ends, [B] and [C] only learn of [A]'s exit. *)
Lemma relay_peer_not_found_witness :
  GetSession "acme" "attic" "D" (HandleRootWSUpgrade validate requestA [] lobby).2
  = Some sessD
  ∧ ∃ e, HandleRootWSUpgrade validate requestA
           ([] ++ Inbound (RawObject "sdp" (Some (mkArgs "A" "D" "offer"))) :: [Tick]) lobby
         = (Closed (HandlerFailed e),
            (teardown sessA (HandleRootWSUpgrade validate requestA [] lobby).2).2)
       ∧ PeerNotFound e.
Proof.
  split; [by vm_compute|].
  destruct (relay_peer_not_found validate requestA sessA [] lobby
              (HandleRootWSUpgrade validate requestA [] lobby).2
              "sdp" (mkArgs "A" "D" "offer") [Tick])
    as (e & _ & Hpnf & Hres & _).
  - reflexivity.
  - by vm_compute.
  - apply list_elem_of_In. by left.
  - by vm_compute.
  - exists e. by split.
Defined.



(** Ticks on a transport that takes writes: a ping each, and the loop
    goes on. *)
Lemma handleWS_ticks session n w :
  websocket session ∉ broken w →
  ∃ w', handleWS session (replicate n Tick) w = (None, w')
      ∧ writes w w' (replicate n (ActWrite (websocket session) messagePing true)).
Proof.
  revert w. induction n as [|n IH]; intros w Hok.
  { exists w. split; [done|apply writes_refl]. }
  simpl replicate. rewrite handleWS_tick, decide_False by done.
  pose proof (sendPing_writes session w) as Hp.
  rewrite bool_decide_eq_true_2 in Hp by done.
  destruct (IH (sendPing session w).2) as (w' & Hrun & Hw).
  { destruct Hp as (_ & -> & _). done. }
  exists w'. split; [done|].
  change (?a :: replicate n ?a) with ([a] ++ replicate n a).
  by eapply writes_trans.
Qed.

(** C8. On a served connection a tick writes one ping, and nothing
    else, to the client.  When that write fails the connection ends;
    when the transport takes writes, any number of ticks with no pong
    in between leaves the connection served. *)
Theorem keepalive_ping (GetClaims : string → option PionClaim) r session pre w w1 :
  sessionOf GetClaims r = Some session →
  HandleRootWSUpgrade GetClaims r pre w = (Serving, w1) →
  let c := websocket session in
  since w1 (handleWS session [Tick] w1).2
  = [ActWrite c messagePing (bool_decide (c ∉ broken w1))]
  ∧ (c ∈ broken w1 → ∀ post,
       HandleRootWSUpgrade GetClaims r (pre ++ Tick :: post) w
       = (Closed (PingFailed ErrTransport), (teardown session (sendPing session w1).2).2))
  ∧ (c ∉ broken w1 → ∀ n, ∃ wn,
       HandleRootWSUpgrade GetClaims r (pre ++ replicate n Tick) w = (Serving, wn)
       ∧ since w1 wn = replicate n (ActWrite c messagePing true)).
Proof.
  intros Hs Hpre c. split_and!.
  - rewrite handleWS_tick. apply since_app.
    destruct (sendPing_writes session w1) as (_ & _ & Ht).
    destruct (decide (websocket session ∈ broken w1)); exact Ht.
  - intros Hbr post.
    rewrite (lifecycle_extend _ _ _ _ _ _ _ Hs Hpre), handleWS_tick.
    by rewrite decide_True.
  - intros Hok n.
    destruct (handleWS_ticks session n w1 Hok) as (wn & Hrun & Hw).
    exists wn. rewrite (lifecycle_extend _ _ _ _ _ _ _ Hs Hpre), Hrun.
    split; [done|by apply writes_since].
Qed.

(** [A] sends no pong over three ticks and stays connected; once its
    transport is down the next tick ends the connection. *)
Lemma keepalive_ping_witness :
  (∃ wn, HandleRootWSUpgrade validate requestA ([] ++ replicate 3 Tick) lobby = (Serving, wn)
       ∧ since (HandleRootWSUpgrade validate requestA [] lobby).2 wn
         = replicate 3 (ActWrite 0 messagePing true))
  ∧ (HandleRootWSUpgrade validate requestA
       ([Tick; Env (TransportDown 0)] ++ Tick :: [Tick]) lobby).1
    = Closed (PingFailed ErrTransport).
Proof.
  split.
  - destruct (keepalive_ping validate requestA sessA [] lobby
                (HandleRootWSUpgrade validate requestA [] lobby).2)
      as (_ & _ & Hlive); [reflexivity|by vm_compute|].
    apply Hlive. vm_compute. intros Hin. discriminate Hin.
  - destruct (keepalive_ping validate requestA sessA [Tick; Env (TransportDown 0)] lobby
                (HandleRootWSUpgrade validate requestA [Tick; Env (TransportDown 0)] lobby).2)
      as (_ & Hdead & _); [reflexivity|by vm_compute|].
    rewrite Hdead; [done|]. by vm_compute.
Defined.

(** C9. In the teardown of a session, an exit write that fails on one
    of the remaining sessions stops nothing: every remaining session is
    written the exit once, in one pass over the room, each failure
    leaves one line in the log, and the close of the departing
    transport follows. *)
Theorem exit_broadcast_tolerates_write_failure session w k1 s1 :
  let t := ApiKeyID (claims session) in
  let r := Room (claims session) in
  let k := SessionKey (claims session) in
  let room := remaining t r k w in
  let w' := (teardown session w).2 in
  room !! k1 = Some s1 →
  websocket s1 ∈ broken w →
  since w w'
  = ActDestroy t r k (bool_decide (is_Some (GetSession t r k w)))
    :: exitWrites k w room ++ [ActClose (websocket session)]
  ∧ ActWrite (websocket s1) (messageExit k) false ∈ exitWrites k w room
  ∧ (∀ k2 s2, room !! k2 = Some s2 →
       ActWrite (websocket s2) (messageExit k) (bool_decide (websocket s2 ∉ broken w))
       ∈ exitWrites k w room)
  ∧ length (exitWrites k w room) = size room
  ∧ 0 < exitFailures w room
  ∧ logs w'
    = logs w
      ++ match GetSession t r k w with
         | Some _ => []
         | None => ["Failed to close destroy session"]
         end
      ++ replicate (exitFailures w room) "Failed to announceExit"
      ++ (if decide (websocket session ∈ broken w)
          then ["Failed to close websocket"] else []).
Proof.
  intros t r k room w' Hs1 Hb1.
  destruct (teardown_world session w) as (_ & _ & _ & Htr).
  split_and!.
  - by apply since_app.
  - pose proof (elem_of_exitWrites k w room k1 s1 Hs1) as Hin.
    by rewrite bool_decide_eq_false_2 in Hin by (intros Hn; by apply Hn).
  - intros k2 s2. apply elem_of_exitWrites.
  - apply length_exitWrites.
  - by eapply exitFailures_pos.
  - apply teardown_logs.
Qed.

(** [A] leaves the lobby while the transport of [C], the first in the
    enumeration, is down: the write to [C] fails, [B] is still written,
    transport 0 is closed. *)
Lemma exit_broadcast_tolerates_write_failure_witness :
  let w := interfere (TransportDown 2) lobbyA in
  since w (teardown sessA w).2
  = [ActDestroy "acme" "lobby" "A" true;
     ActWrite 2 (messageExit "A") false;
     ActWrite 1 (messageExit "A") true;
     ActClose 0]
  ∧ logs (teardown sessA w).2 = ["Failed to announceExit"].
Proof.
  intros w.
  destruct (exit_broadcast_tolerates_write_failure sessA w "C" sessC)
    as (Htr & _ & _ & _ & _ & Hlog).
  - by vm_compute.
  - by vm_compute.
  - split; [rewrite Htr|rewrite Hlog]; by vm_compute.
Defined.

(** C10. A session that is registered under its own key may relay to
    itself: an sdp or a candidate whose [dst] is the sender's key finds
    the sender in the directory and is written to the sender's own
    transport, with [src] and [dst] both that key; the handler fails
    only if that write does. *)
Theorem self_relay_delivered session a w :
  let t := ApiKeyID (claims session) in
  let r := Room (claims session) in
  let k := SessionKey (claims session) in
  let c := websocket session in
  let sdp := handleClientMessage session (RawObject "sdp" (Some a)) w in
  let candidate := handleClientMessage session (RawObject "candidate" (Some a)) w in
  GetSession t r k w = Some session →
  Dst a = k →
  since w sdp.2
  = [ActWrite c (messageSDP (mkArgs k k (Payload a))) (bool_decide (c ∉ broken w))]
  ∧ since w candidate.2
    = [ActWrite c (messageCandidate (mkArgs k k (Payload a))) (bool_decide (c ∉ broken w))]
  ∧ sdp.1 = Wrap (if decide (c ∈ broken w) then Some ErrTransport else None) "sendSdp failed"
  ∧ candidate.1
    = Wrap (if decide (c ∈ broken w) then Some ErrTransport else None) "sendCandidate failed".
Proof.
  intros t r k c sdp candidate Hreg Hdst. subst sdp candidate.
  rewrite handleClientMessage_sdp, handleClientMessage_candidate. cbn [fst snd].
  rewrite <-Hdst in Hreg.
  rewrite (sendSdp_found session _ a session), (sendCandidate_found session _ a session)
    by done.
  rewrite !WriteJSON_result, Hdst. fold k c.
  split_and!; try done; apply writes_since, WriteJSON_writes.
Qed.

(** [A], just registered, sends itself an offer. *)
Lemma self_relay_delivered_witness :
  let w := (HandleRootWSUpgrade validate requestA [] lobby).2 in
  GetSession "acme" "lobby" "A" w = Some sessA
  ∧ since w (handleClientMessage sessA
               (RawObject "sdp" (Some (mkArgs "forged" "A" "offer"))) w).2
    = [ActWrite 0 (messageSDP (mkArgs "A" "A" "offer")) true]
  ∧ (handleClientMessage sessA
       (RawObject "sdp" (Some (mkArgs "forged" "A" "offer"))) w).1 = None.
Proof.
  intros w. split; [by vm_compute|].
  destruct (self_relay_delivered sessA (mkArgs "forged" "A" "offer") w)
    as (Hsdp & _ & Hres & _).
  - by vm_compute.
  - reflexivity.
  - split; [rewrite Hsdp|rewrite Hres]; by vm_compute.
Defined.

(** C5, at a request whose token validates to claims without a room:
    nothing is registered, nothing is written and no exit is announced,
    and the handler returns with the upgraded transport still open: no
    close is in the trace and a write to transport 4 would still go
    through. *)
Theorem incomplete_claims_leave_transport_open :
  let res := HandleRootWSUpgrade validate (mkRequest (Some 4) ["noRoom"]) [Tick] lobby in
  res.1 = ClaimsRejected (ErrClaims "Claims were missing a room")
  ∧ rooms res.2 = rooms lobby
  ∧ since lobby res.2 = []
  ∧ (4 ∉ broken res.2)
  ∧ (WriteJSON (mkSession 4 (mkClaim "acme" "" "E")) messagePing res.2).1 = None.
Proof.
  vm_compute. by split_and!.
Qed.

(** The same for every request whose claims [assertClaims] refuses. *)
Lemma incomplete_claims_rejected (GetClaims : string → option PionClaim)
    r c authToken cl evs w :
  upgrade r = Some c → authTokens r = [authToken] → GetClaims authToken = Some cl →
  (ApiKeyID cl = "" ∨ SessionKey cl = "" ∨ Room cl = "") →
  let res := HandleRootWSUpgrade GetClaims r evs w in
  (∃ e, res.1 = ClaimsRejected e)
  ∧ rooms res.2 = rooms w ∧ broken res.2 = broken w ∧ trace res.2 = trace w.
Proof.
  intros Hup Htok Hcl Hempty res.
  assert (∃ e, assertClaims cl = Some e) as [e He].
  { destruct (assertClaims cl) as [e|] eqn:Hok; [by eexists|].
    apply assertClaims_None in Hok. tauto. }
  assert (sessionOf GetClaims r = None) as Hnone.
  { unfold sessionOf. by rewrite Hup, Htok, Hcl, He. }
  destruct (lifecycle_rejected GetClaims r evs w Hnone) as (Hr & Hb & Ht & Ho).
  fold res in Hr, Hb, Ht, Ho. rewrite Hup, Htok, Hcl, He in Ho.
  split; [by eexists|done].
Qed.



(** ** Further properties of the handler *)

(** *** The dispatcher, case by case *)

(** A frame either fails before anything is written, or is a pong, or
    comes down to one [WriteJSON] to a session in scope. *)
Lemma handleClientMessage_cases session raw w :
  (∃ e, handleClientMessage session raw w = (Some e, w)
      ∧ (Cause e = ErrUnmarshal ∨ Cause e = ErrNoEntry ∨ ∃ m, Cause e = ErrUnknownMethod m))
  ∨ handleClientMessage session raw w = (None, w)
  ∨ ∃ d m msg, inScope session w (websocket d)
      ∧ handleClientMessage session raw w
        = (Wrap (WriteJSON d m w).1 msg, (WriteJSON d m w).2).
Proof.
  destruct raw as [|method args].
  { left. exists ErrUnmarshal. split; [done|by left]. }
  destruct (decide (method = "members")) as [->|?].
  { right; right. rewrite handleClientMessage_members.
    eexists session, _, _. split; [by left|]. unfold sendMembers. reflexivity. }
  destruct (decide (method = "sdp")) as [->|?].
  { rewrite handleClientMessage_sdp. unfold sendSdp. simpl.
    destruct args as [a|]; simpl.
    - destruct (GetSession _ _ (Dst a) w) as [d|] eqn:Hd.
      + right; right. eexists d, _, _. split; [|reflexivity]. right. by eexists _, _.
      + left. eexists. split; [reflexivity|]. right; by left.
    - left. eexists. split; [reflexivity|]. by left. }
  destruct (decide (method = "candidate")) as [->|?].
  { rewrite handleClientMessage_candidate. unfold sendCandidate. simpl.
    destruct args as [a|]; simpl.
    - destruct (GetSession _ _ (Dst a) w) as [d|] eqn:Hd.
      + right; right. eexists d, _, _. split; [|reflexivity]. right. by eexists _, _.
      + left. eexists. split; [reflexivity|]. right; by left.
    - left. eexists. split; [reflexivity|]. by left. }
  destruct (decide (method = "pong")) as [->|?].
  { right; by left. }
  left. rewrite handleClientMessage_unknown
    by (rewrite !elem_of_cons, elem_of_nil; tauto).
  eexists. split; [reflexivity|]. right; right. by eexists.
Qed.

Lemma Cause_Wrap_transport d m w msg e :
  Wrap (WriteJSON d m w).1 msg = Some e →
  Cause e = ErrTransport ∧ websocket d ∈ broken w.
Proof.
  rewrite WriteJSON_result. case_decide; [|done]. by intros [= <-].
Qed.



(** X4. The handler returns no error exactly when nothing it wrote
    failed.  An error is either the failed write itself, and then that
    one failed write is all that happened, or a decode failure, an
    absent relay target or an unknown method, and then nothing
    happened at all. *)
Theorem handler_error_causes session raw w :
  let res := handleClientMessage session raw w in
  match res.1 with
  | None => Forall (λ a, ∃ c m, a = ActWrite c m true) (since w res.2)
  | Some e =>
      (Cause e = ErrTransport ∧ ∃ c m, since w res.2 = [ActWrite c m false])
      ∨ ((Cause e = ErrUnmarshal ∨ Cause e = ErrNoEntry ∨ ∃ m, Cause e = ErrUnknownMethod m)
         ∧ res.2 = w)
  end.
Proof.
  intros res. subst res.
  destruct (handleClientMessage_cases session raw w)
    as [(e & -> & Hc)|[->|(d & m' & msg & Hsc & ->)]]; cbn [fst snd].
  - by right.
  - unfold since. rewrite drop_all. constructor.
  - destruct (WriteJSON_writes d m' w) as (_ & _ & Ht).
    rewrite (since_app _ _ _ Ht).
    destruct (Wrap _ msg) as [e|] eqn:He.
    + apply Cause_Wrap_transport in He as [Hc Hb]. left. split; [done|].
      rewrite bool_decide_eq_false_2 by (intros Hn; by apply Hn). by eexists _, _.
    + rewrite WriteJSON_result in He. case_decide; [done|].
      rewrite bool_decide_eq_true_2 by done. repeat constructor. by eexists _, _.
Qed.

(** *** The relay, when the target is there *)

Lemma handleClientMessage_relay session method a d w :
  method ∈ ["sdp"; "candidate"] →
  GetSession (ApiKeyID (claims session)) (Room (claims session)) (Dst a) w = Some d →
  let m := relayMessage method (mkArgs (SessionKey (claims session)) (Dst a) (Payload a)) in
  ∃ msg, handleClientMessage session (RawObject method (Some a)) w
         = (Wrap (WriteJSON d m w).1 msg, (WriteJSON d m w).2).
Proof.
  intros Hm Hd. apply elem_of_cons in Hm as [->|Hm].
  - rewrite handleClientMessage_sdp, (sendSdp_found session _ a d) by done.
    by eexists.
  - apply list_elem_of_singleton in Hm as ->.
    rewrite handleClientMessage_candidate, (sendCandidate_found session _ a d) by done.
    by eexists.
Qed.

(** X2. A relay whose target is registered in the sender's scope is
    one write to the target's transport, of the same kind of envelope,
    with the destination and the payload of the frame as they came;
    the directory and the transports stay, and the handler succeeds
    exactly when the target's transport takes the write. *)
Theorem relay_delivers_verbatim session method a d w :
  method ∈ ["sdp"; "candidate"] →
  GetSession (ApiKeyID (claims session)) (Room (claims session)) (Dst a) w = Some d →
  let res := handleClientMessage session (RawObject method (Some a)) w in
  since w res.2
  = [ActWrite (websocket d)
       (relayMessage method (mkArgs (SessionKey (claims session)) (Dst a) (Payload a)))
       (bool_decide (websocket d ∉ broken w))]
  ∧ rooms res.2 = rooms w ∧ broken res.2 = broken w
  ∧ (res.1 = None ↔ websocket d ∉ broken w).
Proof.
  intros Hm Hd res. subst res.
  destruct (handleClientMessage_relay session method a d w Hm Hd) as (msg & ->).
  cbn [fst snd]. destruct (WriteJSON_writes d
    (relayMessage method (mkArgs (SessionKey (claims session)) (Dst a) (Payload a))) w)
    as (Hr & Hb & Ht).
  split_and!; [by apply since_app|done|done|].
  rewrite WriteJSON_result. case_decide; simpl; by split.
Qed.

(** [A] sends [B] a candidate. *)
Lemma relay_delivers_verbatim_witness :
  since lobbyA (handleClientMessage sessA
                  (RawObject "candidate" (Some (mkArgs "x" "B" "ice"))) lobbyA).2
  = [ActWrite 1 (messageCandidate (mkArgs "A" "B" "ice")) true].
Proof.
  destruct (relay_delivers_verbatim sessA "candidate" (mkArgs "x" "B" "ice") sessB lobbyA)
    as (Htr & _).
  - apply list_elem_of_In. right. by left.
  - by vm_compute.
  - rewrite Htr. by vm_compute.
Defined.

(** X3. When the write to the relay target fails, it is the sender
    whose handler fails: the sender's loop ends, the sender's
    transport, and no other, is closed, and the target, if it is
    another participant, stays registered. *)
Theorem relay_write_failure_ends_sender (GetClaims : string → option PionClaim)
    r session pre w w1 method a d post :
  sessionOf GetClaims r = Some session →
  HandleRootWSUpgrade GetClaims r pre w = (Serving, w1) →
  method ∈ ["sdp"; "candidate"] →
  GetSession (ApiKeyID (claims session)) (Room (claims session)) (Dst a) w1 = Some d →
  websocket d ∈ broken w1 →
  let res := HandleRootWSUpgrade GetClaims r
               (pre ++ Inbound (RawObject method (Some a)) :: post) w in
  (∃ e, res.1 = Closed (HandlerFailed e) ∧ Cause e = ErrTransport)
  ∧ (∀ c, ActClose c ∈ since w res.2 ↔ c = websocket session)
  ∧ (Dst a ≠ SessionKey (claims session) →
     GetSession (ApiKeyID (claims session)) (Room (claims session)) (Dst a) res.2 = Some d).
Proof.
  intros Hs Hpre Hm Hd Hbr res.
  destruct (handleClientMessage_relay session method a d w1 Hm Hd) as (msg & Hh).
  set (m := relayMessage _ _) in Hh.
  destruct (WriteJSON_writes d m w1) as (Hr & Hb & _).
  rewrite WriteJSON_result, decide_True in Hh by done. simpl in Hh.
  assert (res = (Closed (HandlerFailed (ErrWrap ErrTransport msg)),
                 (teardown session (WriteJSON d m w1).2).2)) as Hres
    by (by eapply lifecycle_handler_error).
  split_and!.
  - rewrite Hres. by eexists.
  - apply lifecycle_closes; [done|]. fold res. by rewrite Hres.
  - intros Hne. rewrite Hres. cbn [snd].
    destruct (teardown_world session (WriteJSON d m w1).2) as (Hroom & _).
    rewrite GetSession_room, Hroom. unfold remaining.
    rewrite lookup_delete_ne by done.
    rewrite GetSession_room in Hd. unfold GetRoom in *. by rewrite Hr.
Qed.

(** [A] relays to [C] after [C]'s transport went down: [A] is closed,
    [C] is still in the directory. *)
Lemma relay_write_failure_ends_sender_witness :
  let res := HandleRootWSUpgrade validate requestA
               ([Env (TransportDown 2)]
                ++ Inbound (RawObject "sdp" (Some (mkArgs "" "C" "offer"))) :: [Tick])
               lobby in
  res.1 = Closed (HandlerFailed (ErrWrap ErrTransport "sendSdp failed"))
  ∧ GetSession "acme" "lobby" "C" res.2 = Some sessC.
Proof.
  intros res.
  destruct (relay_write_failure_ends_sender validate requestA sessA
              [Env (TransportDown 2)] lobby
              (HandleRootWSUpgrade validate requestA [Env (TransportDown 2)] lobby).2
              "sdp" (mkArgs "" "C" "offer") sessC [Tick])
    as (_ & _ & Hreg).
  - reflexivity.
  - by vm_compute.
  - apply list_elem_of_In. by left.
  - by vm_compute.
  - by vm_compute.
  - split; [by vm_compute|]. by apply Hreg.
Defined.

(** *** The event loop *)

(** X5. Pong frames are invisible to the loop: with the pongs taken
    out of the events, whatever their arguments, the loop ends or goes
    on in the same way and leaves the same world. *)
Theorem pong_transparent session evs w :
  handleWS session (List.filter (λ ev, negb (isPong ev)) evs) w = handleWS session evs w.
Proof.
  revert w. induction evs as [|ev evs IH]; intros w; [done|].
  destruct ev as [|raw| |e].
  - cbn [List.filter isPong negb]. rewrite !handleWS_tick.
    case_decide; [done|]. apply IH.
  - destruct raw as [|method args].
    { cbn [List.filter isPong negb]. by rewrite !handleWS_inbound. }
    cbn [List.filter isPong]. case_bool_decide as Hp; cbn [negb].
    + subst method. rewrite handleWS_inbound, handleClientMessage_pong. apply IH.
    + rewrite !handleWS_inbound.
      destruct (handleClientMessage session _ w).1; [done|]. apply IH.
  - done.
  - cbn [List.filter isPong negb]. simpl. apply IH.
Qed.

(** The loop itself changes neither the directory nor the transports:
    only the steps of other goroutines do. *)
Lemma handleWS_quiet session evs w :
  Forall (λ ev, isEnv ev = false) evs →
  rooms (handleWS session evs w).2 = rooms w
  ∧ broken (handleWS session evs w).2 = broken w.
Proof.
  intros Hq. revert w. induction Hq as [|ev evs Hev _ IH]; intros w; [done|].
  destruct ev as [|raw| |e]; try done.
  - rewrite handleWS_tick. destruct (sendPing_writes session w) as (Hr & Hb & _).
    case_decide; [done|]. destruct (IH (sendPing session w).2) as [-> ->]. done.
  - rewrite handleWS_inbound.
    destruct (handleClientMessage_loop session raw w) as (t & (Hr & Hb & _) & _).
    destruct (handleClientMessage session raw w).1; [done|].
    destruct (IH (handleClientMessage session raw w).2) as [-> ->]. done.
Qed.

(** X6. A connection that has ended processes nothing more: once the
    handler has returned on some events, whatever follows them changes
    neither the outcome nor the world. *)
Theorem closed_is_final (GetClaims : string → option PionClaim) r pre evs w :
  (HandleRootWSUpgrade GetClaims r pre w).1 ≠ Serving →
  HandleRootWSUpgrade GetClaims r (pre ++ evs) w = HandleRootWSUpgrade GetClaims r pre w.
Proof.
  intros Hend.
  destruct (sessionOf GetClaims r) as [session|] eqn:Hs.
  - rewrite !(lifecycle_active _ _ _ _ _ Hs) in *. cbv zeta in *.
    destruct (sendMembers session _) as [[e|] w2]; [done|].
    rewrite handleWS_app.
    destruct (handleWS session pre w2) as [[why|] w3]; done.
  - unfold sessionOf in Hs. unfold HandleRootWSUpgrade in *.
    destruct (upgrade r) as [c|]; [|done].
    destruct (authTokens r) as [|tok [|??]]; try done.
    destruct (GetClaims tok) as [cl|]; [|done].
    destruct (assertClaims cl); done.
Qed.

(** After a frame that does not decode, a valid relay is not looked at. *)
Lemma closed_is_final_witness :
  HandleRootWSUpgrade validate requestA
    ([Inbound RawInvalid] ++ [Inbound (RawObject "sdp" (Some (mkArgs "" "B" "offer")))]) lobby
  = HandleRootWSUpgrade validate requestA [Inbound RawInvalid] lobby.
Proof.
  apply (closed_is_final validate requestA [Inbound RawInvalid]
           [Inbound (RawObject "sdp" (Some (mkArgs "" "B" "offer")))] lobby).
  by vm_compute.
Defined.

(** *** Joining *)

Lemma exitsTo_writes k room exits :
  exitsTo k room exits →
  Forall (λ a, ∃ c ok, a = ActWrite c (messageExit k) ok) exits.
Proof.
  unfold exitsTo. induction 1 as [|a kv ?? [ok ->] _ IH]; constructor; eauto.
Qed.

Lemma sessionOf_Some (GetClaims : string → option PionClaim) r c authToken cl :
  upgrade r = Some c → authTokens r = [authToken] → GetClaims authToken = Some cl →
  ApiKeyID cl ≠ "" → SessionKey cl ≠ "" → Room cl ≠ "" →
  sessionOf GetClaims r = Some (mkSession c cl).
Proof.
  intros Hup Htok Hcl H1 H2 H3. unfold sessionOf. rewrite Hup, Htok, Hcl.
  by rewrite (proj2 (assertClaims_None cl)).
Qed.

(** X7. The handler registers a session exactly when the upgrade gave
    a transport, the request has one token, the token validates and
    none of the three fields of its claims is empty; what it registers
    is then that transport under the tenant, room and key of those
    claims. *)
Theorem registration_iff (GetClaims : string → option PionClaim) r evs w t r' k c :
  ActStore t r' k c ∈ since w (HandleRootWSUpgrade GetClaims r evs w).2
  ↔ upgrade r = Some c
    ∧ ∃ authToken, authTokens r = [authToken]
        ∧ GetClaims authToken = Some (mkClaim t r' k)
        ∧ t ≠ "" ∧ k ≠ "" ∧ r' ≠ "".
Proof.
  split.
  - intros Hin. destruct (sessionOf GetClaims r) as [session|] eqn:Hs.
    + destruct (lifecycle_shape GetClaims r session evs w Hs) as (body & Hall & Hshape).
      cbv zeta in Hshape.
      assert (ActStore t r' k c
              = ActStore (ApiKeyID (claims session)) (Room (claims session))
                  (SessionKey (claims session)) (websocket session)) as Heq.
      { rewrite Forall_forall in Hall.
        destruct (HandleRootWSUpgrade GetClaims r evs w).1; try done.
        - destruct Hshape as (found & exits & Htr & Hex%exitsTo_writes & _).
          rewrite Forall_forall in Hex. rewrite Htr in Hin.
          rewrite elem_of_cons, elem_of_app, elem_of_cons, elem_of_app,
            list_elem_of_singleton in Hin.
          destruct Hin as [?|[Hin|[?|[Hin|?]]]]; try done.
          + by apply Hall in Hin.
          + by apply Hex in Hin as (? & ? & ?).
        - destruct Hshape as (found & exits & Htr & Hex%exitsTo_writes & _).
          rewrite Forall_forall in Hex. rewrite Htr in Hin.
          rewrite elem_of_cons, elem_of_app, elem_of_cons, elem_of_app,
            list_elem_of_singleton in Hin.
          destruct Hin as [?|[Hin|[?|[Hin|?]]]]; try done.
          + by apply Hall in Hin.
          + by apply Hex in Hin as (? & ? & ?).
        - rewrite Hshape in Hin. apply elem_of_cons in Hin as [?|Hin]; [done|].
          by apply Hall in Hin. }
      apply sessionOf_inv in Hs as (tok & Hup & Htok & Hcl & Hok).
      apply assertClaims_None in Hok as (H1 & H2 & H3).
      destruct session as [c' [t' r'' k']]. simpl in *. simplify_eq.
      split; [done|]. by exists tok.
    + destruct (lifecycle_rejected GetClaims r evs w Hs) as (_ & _ & Ht & _).
      rewrite (since_app _ _ []) in Hin by (by rewrite app_nil_r).
      by apply elem_of_nil in Hin.
  - intros (Hup & tok & Htok & Hcl & H1 & H2 & H3).
    pose proof (sessionOf_Some GetClaims r c tok (mkClaim t r' k) Hup Htok Hcl H1 H2 H3) as Hs.
    destruct (lifecycle_shape GetClaims r _ evs w Hs) as (body & _ & Hshape).
    cbv zeta in Hshape. simpl in Hshape.
    destruct (HandleRootWSUpgrade GetClaims r evs w).1; try done.
    + destruct Hshape as (found & exits & -> & _). by left.
    + destruct Hshape as (found & exits & -> & _). by left.
    + rewrite Hshape. by left.
Qed.

(** What joining leaves behind, when the snapshot can be written. *)
Lemma join_world (GetClaims : string → option PionClaim) r session w :
  sessionOf GetClaims r = Some session →
  websocket session ∉ broken w →
  let t := ApiKeyID (claims session) in
  let r' := Room (claims session) in
  let k := SessionKey (claims session) in
  ∃ w1, HandleRootWSUpgrade GetClaims r [] w = (Serving, w1)
      ∧ rooms w1 = putSession t r' k session (rooms w)
      ∧ broken w1 = broken w
      ∧ trace w1 = trace w ++
          [ActStore t r' k (websocket session);
           ActWrite (websocket session)
             (messageMembers (others k (<[k := session]> (default ∅ (GetRoom t r' w)))))
             true].
Proof.
  intros Hs Hok t r' k. rewrite (lifecycle_active _ _ _ _ _ Hs). fold t r' k. cbv zeta.
  set (w0 := (StoreSession t r' k session w).2).
  pose proof (sendMembers_writes session w0) as (Hr & Hb & Ht).
  pose proof (sendMembers_result session w0) as Hres.
  rewrite decide_False in Hres by done.
  rewrite bool_decide_eq_true_2 in Ht by done.
  destruct (sendMembers session w0) as [err w1]. simpl in Hres. subst err.
  eexists. split; [reflexivity|]. cbn [snd] in *.
  split_and!; [done|done|].
  rewrite Ht. fold t r' k. subst w0. simpl. rewrite <-(assoc_L (++)). simpl.
  unfold GetRoom, putSession. simpl. by rewrite lookup_insert_eq.
Qed.

(** X8. A client that joins is written one frame, the list of the keys
    that were registered in its room before it came, its own key left
    out even when that key was registered already; no other transport
    is written to. *)
Theorem join_snapshot (GetClaims : string → option PionClaim) r session w :
  sessionOf GetClaims r = Some session →
  websocket session ∉ broken w →
  let t := ApiKeyID (claims session) in
  let r' := Room (claims session) in
  let k := SessionKey (claims session) in
  let res := HandleRootWSUpgrade GetClaims r [] w in
  ∃ l, res.1 = Serving
     ∧ since w res.2
       = [ActStore t r' k (websocket session);
          ActWrite (websocket session) (messageMembers l) true]
     ∧ NoDup l
     ∧ ∀ k', k' ∈ l ↔ is_Some (GetSession t r' k' w) ∧ k' ≠ k.
Proof.
  intros Hs Hok t r' k res.
  destruct (join_world GetClaims r session w Hs Hok) as (w1 & Hrun & _ & _ & Ht).
  subst res. rewrite Hrun. eexists. split_and!; [done|by apply since_app|..].
  - apply NoDup_others.
  - intros k'. rewrite elem_of_others, GetSession_room. fold t r'. split.
    + intros [Hsome Hne]. by rewrite lookup_insert_ne in Hsome.
    + intros [Hsome Hne]. by rewrite lookup_insert_ne.
Qed.

(** [A] joins the lobby of [B] and [C]: [B] is in its list, [A] is not. *)
Lemma join_snapshot_witness :
  ∃ l, since lobby (HandleRootWSUpgrade validate requestA [] lobby).2
       = [ActStore "acme" "lobby" "A" 0; ActWrite 0 (messageMembers l) true]
     ∧ "B" ∈ l ∧ "A" ∉ l.
Proof.
  destruct (join_snapshot validate requestA sessA lobby) as (l & _ & Htr & _ & Hl).
  - reflexivity.
  - vm_compute. intros Hin. discriminate Hin.
  - exists l. split; [exact Htr|]. split.
    + apply Hl. split; [exists sessB; by vm_compute|done].
    + intros Hin. apply Hl in Hin. by destruct Hin.
Defined.

Lemma GetSession_put w w1 t r k s t2 r2 k2 :
  rooms w1 = putSession t r k s (rooms w) →
  GetSession t2 r2 k2 w1
  = if decide ((t2, r2) = (t, r) ∧ k2 = k) then Some s else GetSession t2 r2 k2 w.
Proof.
  intros Hr. unfold GetSession, GetRoom. rewrite Hr. unfold putSession.
  destruct (decide ((t2, r2) = (t, r))) as [[= -> ->]|Hne].
  - rewrite lookup_insert_eq. simpl.
    destruct (decide (k2 = k)) as [->|Hk].
    + rewrite decide_True by done. apply lookup_insert_eq.
    + rewrite decide_False by tauto. rewrite lookup_insert_ne by done.
      by destruct (rooms w !! (t, r)).
  - rewrite decide_False by tauto. by rewrite lookup_insert_ne.
Qed.

(** X9. After a join the directory gives the new session for its key,
    whatever was registered under that key before, and gives what it
    gave before for every other key and every other room. *)
Theorem join_registers (GetClaims : string → option PionClaim) r session w t2 r2 k2 :
  sessionOf GetClaims r = Some session →
  websocket session ∉ broken w →
  let t := ApiKeyID (claims session) in
  let r' := Room (claims session) in
  let k := SessionKey (claims session) in
  let res := HandleRootWSUpgrade GetClaims r [] w in
  GetSession t r' k res.2 = Some session
  ∧ (((t2, r2) ≠ (t, r') ∨ k2 ≠ k) → GetSession t2 r2 k2 res.2 = GetSession t2 r2 k2 w)
  ∧ broken res.2 = broken w.
Proof.
  intros Hs Hok t r' k res.
  destruct (join_world GetClaims r session w Hs Hok) as (w1 & Hrun & Hr & Hb & _).
  subst res. rewrite Hrun. cbn [snd]. split_and!; [| |done].
  - rewrite (GetSession_put w w1 t r' k session) by done. by rewrite decide_True.
  - intros Hne. rewrite (GetSession_put w w1 t r' k session) by done.
    rewrite decide_False; [done|]. tauto.
Qed.

(** A second connection takes the key of [A] over; [B] and the attic
    are where they were. *)
Lemma join_registers_witness :
  let res := HandleRootWSUpgrade validate (mkRequest (Some 5) ["tokenA"]) [] lobbyA in
  GetSession "acme" "lobby" "A" lobbyA = Some sessA
  ∧ GetSession "acme" "lobby" "A" res.2 = Some sessA'
  ∧ GetSession "acme" "lobby" "B" res.2 = Some sessB.
Proof.
  intros res. split; [by vm_compute|].
  destruct (join_registers validate (mkRequest (Some 5) ["tokenA"]) sessA' lobbyA
              "acme" "lobby" "B") as (Hown & Hother & _).
  - reflexivity.
  - vm_compute. intros Hin. discriminate Hin.
  - split; [exact Hown|]. subst res. rewrite Hother; [by vm_compute|]. by right.
Defined.

(** X16. When the snapshot cannot be written the connection is over
    before its loop starts: whatever events come, the session is
    registered, taken out again, announced as gone to the others of
    its room, and its transport is closed. *)
Theorem snapshot_failure_tears_down (GetClaims : string → option PionClaim) r session evs w :
  sessionOf GetClaims r = Some session →
  websocket session ∈ broken w →
  let t := ApiKeyID (claims session) in
  let r' := Room (claims session) in
  let k := SessionKey (claims session) in
  let c := websocket session in
  let res := HandleRootWSUpgrade GetClaims r evs w in
  res.1 = MembersFailed ErrTransport
  ∧ res = HandleRootWSUpgrade GetClaims r [] w
  ∧ GetSession t r' k res.2 = None
  ∧ ∃ l, since w res.2
         = ActStore t r' k c :: ActWrite c (messageMembers l) false
           :: ActDestroy t r' k true :: exitWrites k w (remaining t r' k w) ++ [ActClose c].
Proof.
  intros Hs Hbr t r' k c res. subst res.
  rewrite !(lifecycle_active _ _ _ _ _ Hs). fold t r' k. cbv zeta.
  set (w0 := (StoreSession t r' k session w).2).
  pose proof (sendMembers_writes session w0) as (Hr & Hb & Ht).
  pose proof (sendMembers_result session w0) as Hres.
  rewrite decide_True in Hres by done.
  rewrite bool_decide_eq_false_2 in Ht by (intros Hn; by apply Hn).
  destruct (sendMembers session w0) as [err w1]. simpl in Hres. subst err.
  cbn [fst snd] in *.
  destruct (teardown_world session w1) as (Hroom & _ & _ & Htr). fold t r' k c in Hroom, Htr.
  assert (rooms w1 = putSession t r' k session (rooms w)) as Hput by done.
  assert (remaining t r' k w1 = remaining t r' k w) as Hrem.
  { unfold remaining, GetRoom. rewrite Hput. unfold putSession.
    rewrite lookup_insert_eq. simpl. by rewrite delete_insert_eq. }
  assert (GetSession t r' k w1 = Some session) as Hown.
  { rewrite (GetSession_put w w1 t r' k session) by done. by rewrite decide_True. }
  split_and!; [done|done| |].
  - rewrite GetSession_room, Hroom. apply lookup_delete_eq.
  - eexists. apply since_app. rewrite Htr, Ht, Hown, Hrem.
    rewrite bool_decide_eq_true_2 by eauto.
    assert (exitWrites k w1 (remaining t r' k w) = exitWrites k w (remaining t r' k w)) as ->.
    { unfold exitWrites. by rewrite Hb. }
    subst w0. simpl. rewrite <-!(assoc_L (++)). reflexivity.
Qed.

(** [A] comes in on a transport that is already down. *)
Lemma snapshot_failure_tears_down_witness :
  let w := interfere (TransportDown 0) lobby in
  since w (HandleRootWSUpgrade validate requestA [Tick] w).2
  = [ActStore "acme" "lobby" "A" 0;
     ActWrite 0 (messageMembers ["C"; "B"]) false;
     ActDestroy "acme" "lobby" "A" true;
     ActWrite 2 (messageExit "A") true;
     ActWrite 1 (messageExit "A") true;
     ActClose 0].
Proof.
  intros w.
  destruct (snapshot_failure_tears_down validate requestA sessA [Tick] w)
    as (_ & Hsame & _ & _).
  - reflexivity.
  - by vm_compute.
  - rewrite Hsame. by vm_compute.
Defined.

(** *** Leaving *)

(** X12. Every write of the teardown is the exit of the departing key,
    to a session that was registered in the same (tenant, room) under
    another key; the entry under the departing key itself is written
    nothing. *)
Theorem exit_recipients session w c m ok :
  let t := ApiKeyID (claims session) in
  let r := Room (claims session) in
  let k := SessionKey (claims session) in
  ActWrite c m ok ∈ since w (teardown session w).2 →
  m = messageExit k
  ∧ ∃ k' s, k' ≠ k ∧ GetSession t r k' w = Some s
          ∧ c = websocket s ∧ ok = bool_decide (c ∉ broken w).
Proof.
  intros t r k Hin.
  destruct (teardown_world session w) as (_ & _ & _ & Htr). fold t r k in Htr.
  rewrite (since_app _ _ _ Htr) in Hin.
  rewrite elem_of_cons, elem_of_app, list_elem_of_singleton in Hin.
  destruct Hin as [?|[Hin|?]]; try done.
  unfold exitWrites in Hin. apply list_elem_of_fmap in Hin as ([k' s] & Heq & Hin).
  apply elem_of_map_to_list in Hin. unfold remaining in Hin.
  apply lookup_delete_Some in Hin as [Hne Hs]. simpl in Heq. injection Heq as -> -> ->.
  split; [done|]. exists k', s. rewrite GetSession_room. by split_and!.
Qed.

(** [A] leaves: [B] is written the exit of [A]. *)
Lemma exit_recipients_witness :
  messageExit "A" = messageExit (SessionKey (claims sessA))
  ∧ ∃ k' s, k' ≠ "A" ∧ GetSession "acme" "lobby" k' lobbyA = Some s
          ∧ 1 = websocket s ∧ true = bool_decide (1 ∉ broken lobbyA).
Proof.
  apply (exit_recipients sessA lobbyA 1 (messageExit "A") true).
  vm_compute. apply list_elem_of_In. right. right. by left.
Defined.

(** What a whole lifetime leaves of the directory, seen from the world
    the loop ended in. *)
Lemma teardown_directory session w t2 r2 k2 :
  let t := ApiKeyID (claims session) in
  let r := Room (claims session) in
  let k := SessionKey (claims session) in
  GetSession t2 r2 k2 (teardown session w).2
  = if decide ((t2, r2) = (t, r) ∧ k2 = k) then None else GetSession t2 r2 k2 w.
Proof.
  intros t r k.
  destruct (teardown_world session w) as (Hroom & Hother & _). fold t r k in Hroom, Hother.
  destruct (decide ((t2, r2) = (t, r))) as [[= -> ->]|Hne].
  - rewrite GetSession_room, Hroom. unfold remaining.
    destruct (decide (k2 = k)) as [->|Hk].
    + rewrite decide_True by done. apply lookup_delete_eq.
    + rewrite decide_False by tauto. rewrite lookup_delete_ne by done.
      by rewrite GetSession_room.
  - rewrite decide_False by tauto. unfold GetSession. by rewrite Hother.
Qed.

(** X11. The teardown takes out whatever is registered under the
    departing key, also the session of another connection that took
    the key over: that connection is not closed, but the directory no
    longer knows it. *)
Theorem teardown_removes_by_key session other w :
  let t := ApiKeyID (claims session) in
  let r := Room (claims session) in
  let k := SessionKey (claims session) in
  let w' := (teardown session w).2 in
  GetSession t r k w = Some other →
  websocket other ≠ websocket session →
  websocket other ∉ broken w →
  GetSession t r k w' = None
  ∧ (websocket other ∉ broken w')
  ∧ ActDestroy t r k true ∈ since w w'
  ∧ ∀ c, ActClose c ∈ since w w' → c = websocket session.
Proof.
  intros t r k w' Hreg Hne Hok. subst w'.
  destruct (teardown_world session w) as (_ & _ & Hb & Htr). fold t r k in Htr.
  split_and!.
  - rewrite (teardown_directory session w t r k). fold t r k. by rewrite decide_True.
  - rewrite Hb, elem_of_union, elem_of_singleton. tauto.
  - rewrite (since_app _ _ _ Htr), Hreg.
    rewrite bool_decide_eq_true_2 by eauto. by left.
  - intros c. rewrite (since_app _ _ _ Htr).
    rewrite elem_of_cons, elem_of_app, list_elem_of_singleton.
    intros [?|[Hin|?]]; [done| |by simplify_eq].
    unfold exitWrites in Hin. by apply list_elem_of_fmap in Hin as (? & ? & _).
Qed.

(** [A] is served on transport 0, a second connection registers the
    key of [A] on transport 5, then the first one ends: the key is gone
    and transport 5 is still open. *)
Lemma teardown_removes_by_key_witness :
  let res := HandleRootWSUpgrade validate requestA
               [Env (PeerJoin "acme" "lobby" "A" sessA'); ReadError] lobby in
  res.1 = Closed Stopped
  ∧ GetSession "acme" "lobby" "A" res.2 = None
  ∧ (5 ∉ broken res.2).
Proof.
  intros res.
  destruct (teardown_removes_by_key sessA sessA'
              (interfere (PeerJoin "acme" "lobby" "A" sessA')
                 (HandleRootWSUpgrade validate requestA [] lobby).2))
    as (Hgone & Hopen & _).
  - by vm_compute.
  - by vm_compute.
  - vm_compute. intros Hin. discriminate Hin.
  - split; [by vm_compute|]. split; [exact Hgone|exact Hopen].
Defined.

(** X10. A connection whose loop no other goroutine interferes with
    leaves, when it has ended, a directory without its own key and
    otherwise as it found it, and no transport closed but its own. *)
Theorem lifetime_footprint (GetClaims : string → option PionClaim)
    r session evs w t2 r2 k2 :
  sessionOf GetClaims r = Some session →
  Forall (λ ev, isEnv ev = false) evs →
  let t := ApiKeyID (claims session) in
  let r' := Room (claims session) in
  let k := SessionKey (claims session) in
  let res := HandleRootWSUpgrade GetClaims r evs w in
  res.1 ≠ Serving →
  GetSession t2 r2 k2 res.2
  = (if decide ((t2, r2) = (t, r') ∧ k2 = k) then None else GetSession t2 r2 k2 w)
  ∧ broken res.2 = {[websocket session]} ∪ broken w.
Proof.
  intros Hs Hq t r' k res. subst res.
  rewrite (lifecycle_active _ _ _ _ _ Hs). fold t r' k. cbv zeta.
  set (w0 := (StoreSession t r' k session w).2).
  pose proof (sendMembers_writes session w0) as (Hr & Hb & _).
  destruct (sendMembers session w0) as [[e|] w1]; cbn [fst snd] in *.
  - intros _.
    assert (rooms w1 = putSession t r' k session (rooms w)) as Hput by done.
    destruct (teardown_world session w1) as (_ & _ & Hbr & _).
    rewrite (teardown_directory session w1 t2 r2 k2). fold t r' k.
    split; [|by rewrite Hbr, Hb].
    case_decide as Hd; [done|].
    rewrite (GetSession_put w w1 t r' k session) by done. by rewrite decide_False.
  - destruct (handleWS_quiet session evs w1 Hq) as [Hr3 Hb3].
    destruct (handleWS session evs w1) as [[why|] w3]; cbn [fst snd] in *; [|done].
    intros _.
    assert (rooms w3 = putSession t r' k session (rooms w)) as Hput
      by (by rewrite Hr3, Hr).
    destruct (teardown_world session w3) as (_ & _ & Hbr & _).
    rewrite (teardown_directory session w3 t2 r2 k2). fold t r' k.
    split; [|by rewrite Hbr, Hb3, Hb].
    case_decide as Hd; [done|].
    rewrite (GetSession_put w w3 t r' k session) by done. by rewrite decide_False.
Qed.

(** [A] comes, relays to [B], and goes: [B] and [D] are where they
    were, [A] is not in the directory. *)
Lemma lifetime_footprint_witness :
  let res := HandleRootWSUpgrade validate requestA
               [Inbound (RawObject "sdp" (Some (mkArgs "" "B" "offer"))); ReadError] lobby in
  GetSession "acme" "lobby" "B" res.2 = GetSession "acme" "lobby" "B" lobby
  ∧ GetSession "acme" "lobby" "A" res.2 = None.
Proof.
  intros res. split.
  - destruct (lifetime_footprint validate requestA sessA
                [Inbound (RawObject "sdp" (Some (mkArgs "" "B" "offer"))); ReadError]
                lobby "acme" "lobby" "B") as (Hdir & _).
    + reflexivity.
    + by repeat constructor.
    + by vm_compute.
    + subst res. rewrite Hdir. by vm_compute.
  - destruct (lifetime_footprint validate requestA sessA
                [Inbound (RawObject "sdp" (Some (mkArgs "" "B" "offer"))); ReadError]
                lobby "acme" "lobby" "A") as (Hdir & _).
    + reflexivity.
    + by repeat constructor.
    + by vm_compute.
    + subst res. rewrite Hdir. by vm_compute.
Defined.

(** X13. Once a session has been torn down, a relay to its key from
    any session of the same (tenant, room) finds no one: the sender's
    handler fails with the error of the absent peer and writes
    nothing. *)
Theorem relay_to_departed_peer session sender method a w :
  let w' := (teardown session w).2 in
  ApiKeyID (claims sender) = ApiKeyID (claims session) →
  Room (claims sender) = Room (claims session) →
  Dst a = SessionKey (claims session) →
  method ∈ ["sdp"; "candidate"] →
  ∃ e, handleClientMessage sender (RawObject method (Some a)) w' = (Some e, w')
     ∧ PeerNotFound e.
Proof.
  intros w' Ht Hr Hd Hm.
  assert (GetSession (ApiKeyID (claims sender)) (Room (claims sender)) (Dst a) w' = None)
    as Habs.
  { rewrite Ht, Hr, Hd. subst w'.
    rewrite (teardown_directory session w). by rewrite decide_True. }
  apply elem_of_cons in Hm as [->|Hm].
  - rewrite handleClientMessage_sdp, (sendSdp_absent sender _ a) by done. by eexists.
  - apply list_elem_of_singleton in Hm as ->.
    rewrite handleClientMessage_candidate, (sendCandidate_absent sender _ a) by done.
    by eexists.
Qed.

(** [A] has left; [B] sends it an offer. *)
Lemma relay_to_departed_peer_witness :
  let w' := (teardown sessA lobbyA).2 in
  handleClientMessage sessB (RawObject "sdp" (Some (mkArgs "" "A" "offer"))) w'
  = (Some (ErrWrap ErrNoEntry "sendSdp failed"), w').
Proof.
  intros w'.
  destruct (relay_to_departed_peer sessA sessB "sdp" (mkArgs "" "A" "offer") lobbyA)
    as (e & He & _).
  - reflexivity.
  - reflexivity.
  - reflexivity.
  - apply list_elem_of_In. by left.
  - by vm_compute.
Defined.

(** X14. Once a session has joined, the members list of every other
    participant of its room has its key. *)
Theorem join_is_visible (GetClaims : string → option PionClaim) r session peer args w :
  sessionOf GetClaims r = Some session →
  websocket session ∉ broken w →
  ApiKeyID (claims peer) = ApiKeyID (claims session) →
  Room (claims peer) = Room (claims session) →
  SessionKey (claims peer) ≠ SessionKey (claims session) →
  let w1 := (HandleRootWSUpgrade GetClaims r [] w).2 in
  ∃ l, since w1 (handleClientMessage peer (RawObject "members" args) w1).2
       = [ActWrite (websocket peer) (messageMembers l)
            (bool_decide (websocket peer ∉ broken w))]
     ∧ SessionKey (claims session) ∈ l.
Proof.
  intros Hs Hok Ht Hr Hk w1.
  destruct (join_registers GetClaims r session w "" "" "" Hs Hok) as (Hown & _ & Hb).
  fold w1 in Hown, Hb.
  rewrite handleClientMessage_members. cbn [snd].
  eexists. split.
  - rewrite <-Hb. apply writes_since, sendMembers_writes.
  - apply elem_of_others. rewrite Ht, Hr, <-GetSession_room, Hown. split; [by eexists|done].
Qed.

(** [A] has joined; [B] asks for the members. *)
Lemma join_is_visible_witness :
  let w1 := (HandleRootWSUpgrade validate requestA [] lobby).2 in
  ∃ l, since w1 (handleClientMessage sessB (RawObject "members" None) w1).2
       = [ActWrite 1 (messageMembers l) true]
     ∧ "A" ∈ l.
Proof.
  intros w1.
  destruct (join_is_visible validate requestA sessA sessB None lobby) as (l & Htr & Hin).
  - reflexivity.
  - vm_compute. intros Hin. discriminate Hin.
  - reflexivity.
  - reflexivity.
  - intros Heq. discriminate Heq.
  - exists l. split; [exact Htr|exact Hin].
Defined.

(** X17. A teardown that finds its key already gone from the directory
    goes through all the same: the failure of [DestroySession] is
    logged, every session of the room is written the exit, the
    transport is closed and no lookup changes. *)
Theorem teardown_tolerates_absent session w t2 r2 k2 :
  let t := ApiKeyID (claims session) in
  let r := Room (claims session) in
  let k := SessionKey (claims session) in
  let w' := (teardown session w).2 in
  GetSession t r k w = None →
  since w w'
  = ActDestroy t r k false
    :: exitWrites k w (default ∅ (GetRoom t r w)) ++ [ActClose (websocket session)]
  ∧ GetSession t2 r2 k2 w' = GetSession t2 r2 k2 w
  ∧ "Failed to close destroy session" ∈ logs w'.
Proof.
  intros t r k w' Habs. subst w'.
  destruct (teardown_world session w) as (_ & _ & _ & Htr). fold t r k in Htr.
  pose proof (teardown_logs session w) as Hlog. cbv zeta in Hlog. fold t r k in Hlog.
  rewrite Habs in Htr, Hlog.
  assert (remaining t r k w = default ∅ (GetRoom t r w)) as Hrem.
  { unfold remaining. apply delete_id. by rewrite <-GetSession_room. }
  split_and!.
  - apply since_app. rewrite Htr, Hrem.
    by rewrite bool_decide_eq_false_2 by apply is_Some_None.
  - rewrite (teardown_directory session w t2 r2 k2). fold t r k.
    destruct (decide ((t2, r2) = (t, r) ∧ k2 = k)) as [[Hsc ->]|]; [|done].
    injection Hsc as -> ->. by rewrite Habs.
  - rewrite Hlog. rewrite !elem_of_app. right; left. by left.
Qed.

(** The first connection of [A] ends after another one has taken the
    key over and left again: [B] and [C] are told of the exit of [A]
    a second time. *)
Lemma teardown_tolerates_absent_witness :
  let w := (teardown sessA' lobbyA).2 in
  since w (teardown sessA w).2
  = [ActDestroy "acme" "lobby" "A" false;
     ActWrite 2 (messageExit "A") true;
     ActWrite 1 (messageExit "A") true;
     ActClose 0].
Proof.
  intros w.
  destruct (teardown_tolerates_absent sessA w "acme" "lobby" "A") as (Htr & _).
  - by vm_compute.
  - rewrite Htr. by vm_compute.
Defined.

(** *** Turning a request away *)

(** X15. A request the handler builds no session for, because the
    upgrade failed, the token count is not one, the token does not
    validate or its claims lack a field, leaves no trace: nothing is
    registered, written or closed, so an upgraded transport stays
    open, and no event is served. *)
Theorem rejection_is_silent (GetClaims : string → option PionClaim) r evs w :
  sessionOf GetClaims r = None →
  let res := HandleRootWSUpgrade GetClaims r evs w in
  since w res.2 = []
  ∧ rooms res.2 = rooms w
  ∧ broken res.2 = broken w
  ∧ res = HandleRootWSUpgrade GetClaims r [] w
  ∧ (res.1 = UpgradeFailed ∨ res.1 = GetClaimsFailed
     ∨ (∃ n, res.1 = BadTokenCount n) ∨ ∃ e, res.1 = ClaimsRejected e).
Proof.
  intros Hs res. subst res.
  unfold sessionOf in Hs. unfold HandleRootWSUpgrade, since.
  destruct (upgrade r) as [c|]; [|by rewrite drop_all; auto 10].
  destruct (authTokens r) as [|tok [|??]];
    try (simpl; rewrite drop_all; split_and!; try done; right; right; left; by eexists).
  destruct (GetClaims tok) as [cl|]; [|by simpl; rewrite drop_all; auto 10].
  destruct (assertClaims cl) as [e|]; [|done].
  simpl. rewrite drop_all. split_and!; try done. right; right; right. by eexists.
Qed.

(** A token that does not validate. *)
Lemma rejection_is_silent_witness :
  let res := HandleRootWSUpgrade validate (mkRequest (Some 4) ["stolen"]) [Tick] lobby in
  res.1 = GetClaimsFailed ∧ since lobby res.2 = [] ∧ broken res.2 = broken lobby.
Proof.
  intros res.
  destruct (rejection_is_silent validate (mkRequest (Some 4) ["stolen"]) [Tick] lobby)
    as (Htr & _ & Hb & _).
  - reflexivity.
  - split; [by vm_compute|]. by split.
Defined.
